(** * convert_chords_interactive.py: chord-chart to inline-chord conversion

    A shallow embedding of the text-transformation core of
    [convert_chords_interactive.py]: the token classifiers, the line
    classifier, the column merge engine, the standalone chord formatter and
    the pass controller; and, around it, what [main] does with the text:
    [str.splitlines()], the text [write_output_file] writes, and the choice
    of the output file name ([unique_output_filename], with [os.path.exists]
    given as a predicate on names, and the POSIX [os.path.basename] and
    [os.path.splitext]).

    Modelling choices:
    - a Python [str] is a [list ascii]; characters are restricted to ASCII;
    - Python's whitespace ([str.isspace], [str.strip], [str.split] and the
      regex class [\s] for [str] patterns) is, on ASCII, the characters
      9..13, 28..31 and 32;
    - the four regular expressions of the module are written as terms of a
      small regex syntax, and [re.match] is a backtracking-free matcher
      returning every possible remainder of the subject; [$] (without
      MULTILINE) accepts the end of the subject or a single final newline;
    - [re.IGNORECASE] on ASCII compares lower-cased characters. *)

From Stdlib Require Import List Ascii String Bool Arith Lia Sorted.
Import ListNotations.
Open Scope list_scope.

Local Abbreviation length := List.length.
Local Abbreviation concat := List.concat.

(** ** Characters *)

Definition str := list ascii.

Definition code (c : ascii) : nat := nat_of_ascii c.

(** [str.isspace] / [\s] restricted to ASCII. *)
Definition isspace (c : ascii) : bool :=
  let n := code c in
  ((9 <=? n) && (n <=? 13)) || ((28 <=? n) && (n <=? 32)).

(** ASCII lower-casing, as used by [re.IGNORECASE]. *)
Definition lower (c : ascii) : ascii :=
  let n := code c in
  if (65 <=? n) && (n <=? 90) then ascii_of_nat (n + 32) else c.

Definition ci_eq (a b : ascii) : bool := Ascii.eqb (lower a) (lower b).

Definition newline : ascii := "010"%char.

(** [str.strip()] with no argument. *)
Fixpoint lstrip (s : str) : str :=
  match s with
  | [] => []
  | c :: t => if isspace c then lstrip t else s
  end.

Definition strip (s : str) : str := rev (lstrip (rev (lstrip s))).

(** ** A small regular-expression engine *)

Module Regex.

Inductive re : Type :=
| Eps : re
| Chr : (ascii -> bool) -> re            (* one character of a class *)
| Seq : re -> re -> re
| Alt : re -> re -> re
| Opt : re -> re                         (* r? *)
| StarC : (ascii -> bool) -> re.         (* [class]* *)

(** All prefixes of [s] made of characters of [p], as remainders. *)
Fixpoint star_rems (p : ascii -> bool) (s : str) : list str :=
  s :: match s with
       | c :: t => if p c then star_rems p t else []
       | [] => []
       end.

(** [matches r s]: every remainder [rem] such that a prefix of [s] matched
    by [r] leaves [rem]. *)
Fixpoint matches (r : re) (s : str) : list str :=
  match r with
  | Eps => [s]
  | Chr p => match s with
             | c :: t => if p c then [t] else []
             | [] => []
             end
  | Seq r1 r2 => flat_map (matches r2) (matches r1 s)
  | Alt r1 r2 => matches r1 s ++ matches r2 s
  | Opt r1 => s :: matches r1 s
  | StarC p => star_rems p s
  end.

(** [$] without MULTILINE: end of subject, or just before a final newline. *)
Definition at_end (rem : str) : bool :=
  match rem with
  | [] => true
  | [c] => Ascii.eqb c newline
  | _ => false
  end.

(** [bool(re.match(r"^...$", s))]. *)
Definition full_match (r : re) (s : str) : bool :=
  existsb at_end (matches r s).

(** Denotation: the language of a regex. *)
Fixpoint lang (r : re) (w : str) : Prop :=
  match r with
  | Eps => w = []
  | Chr p => exists c, w = [c] /\ p c = true
  | Seq r1 r2 => exists w1 w2, w = w1 ++ w2 /\ lang r1 w1 /\ lang r2 w2
  | Alt r1 r2 => lang r1 w \/ lang r2 w
  | Opt r1 => w = [] \/ lang r1 w
  | StarC p => Forall (fun c => p c = true) w
  end.

(** Literal string, case-insensitive. *)
Fixpoint lit_ci (s : str) : re :=
  match s with
  | [] => Eps
  | c :: t => Seq (Chr (ci_eq c)) (lit_ci t)
  end.

Definition lit (c : ascii) : re := Chr (Ascii.eqb c).

End Regex.
Import Regex.

(** ** Regex definitions and token helpers (source lines 97-110) *)

Definition isdigit (c : ascii) : bool := (48 <=? code c) && (code c <=? 57).

(** [[A-G]] under IGNORECASE. *)
Definition note_letter (c : ascii) : bool :=
  let n := code (lower c) in (97 <=? n) && (n <=? 103).

Definition not_newline (c : ascii) : bool := negb (Ascii.eqb c newline).

Definition s2l (s : string) : str := list_ascii_of_string s.

(** [(?:#|b)?] *)
Definition accidental_re : re := Opt (Alt (lit_ci (s2l "#")) (lit_ci (s2l "b"))).

(** [(?:maj|min|m|dim|aug|sus|add)] *)
Definition quality_kw_re : re :=
  Alt (lit_ci (s2l "maj")) (Alt (lit_ci (s2l "min")) (Alt (lit_ci (s2l "m"))
  (Alt (lit_ci (s2l "dim")) (Alt (lit_ci (s2l "aug")) (Alt (lit_ci (s2l "sus"))
  (lit_ci (s2l "add"))))))).

(** The quality group and the slash-bass group are [quality_re] and
    [slash_bass_re] below. The source regex (line 98), quoted in two pieces:
    [^[A-G](?:#|b)?(?:(?:maj|min|m|dim|aug|sus|add)\d*]
    [)?(?:/[A-G](?:#|b)?)?$], compiled with [re.IGNORECASE]. *)
Definition quality_re : re := Opt (Seq quality_kw_re (StarC isdigit)).

Definition slash_bass_re : re :=
  Opt (Seq (lit_ci (s2l "/")) (Seq (Chr note_letter) accidental_re)).

Definition CHORD_TOKEN_RE : re :=
  Seq (Chr note_letter) (Seq accidental_re (Seq quality_re slash_bass_re)).

(** [^\(.*\)$] *)
Definition PAREN_ANNOTATION_RE : re :=
  Seq (lit "(") (Seq (StarC not_newline) (lit ")")).

(** [^\|+$] *)
Definition BAR_SEPARATOR_RE : re :=
  Seq (lit "|") (StarC (Ascii.eqb "|")).

(** [^\s*\[.*\]\s*$], the section-header test of [process_lines]. *)
Definition HEADER_RE : re :=
  Seq (StarC isspace) (Seq (lit "[") (Seq (StarC not_newline)
  (Seq (lit "]") (StarC isspace)))).

(** ** Token classification helpers (source lines 116-177) *)

Definition is_chord_token (token : str) : bool :=
  match token with
  | [] => false
  | _ => full_match CHORD_TOKEN_RE (strip token)
  end.

Definition is_parenthetical_annotation (token : str) : bool :=
  full_match PAREN_ANNOTATION_RE (strip token).

Definition is_bar_separator (token : str) : bool :=
  full_match BAR_SEPARATOR_RE (strip token).

(** [str.split()] with no argument: the maximal non-whitespace runs.
    [acc] is the current run, reversed. *)
Fixpoint split_aux (acc : str) (s : str) : list str :=
  match s with
  | [] => match acc with [] => [] | _ => [rev acc] end
  | c :: t =>
      if isspace c then
        match acc with [] => split_aux [] t | _ => rev acc :: split_aux [] t end
      else split_aux (c :: acc) t
  end.

Definition py_split (s : str) : list str := split_aux [] s.

Definition is_chord_only_line (line : str) : bool :=
  let tokens := filter (fun tok => match tok with [] => false | _ => true end)
                       (py_split line) in
  match tokens with
  | [] => false
  | _ => forallb (fun tok => is_chord_token tok
                             || is_parenthetical_annotation tok
                             || is_bar_separator tok) tokens
  end.

(** ** [re.finditer(r"\S+", s)]: maximal non-whitespace runs with their
    start offsets. [pos] is the index of the head of [s], [start] the start of
    the current run [acc] (reversed). *)
Fixpoint finditer_aux (pos start : nat) (acc : str) (s : str) : list (nat * str) :=
  match s with
  | [] => match acc with [] => [] | _ => [(start, rev acc)] end
  | c :: t =>
      if isspace c then
        match acc with
        | [] => finditer_aux (S pos) start [] t
        | _ => (start, rev acc) :: finditer_aux (S pos) start [] t
        end
      else
        match acc with
        | [] => finditer_aux (S pos) pos [c] t
        | _ => finditer_aux (S pos) start (c :: acc) t
        end
  end.

Definition finditer_nonspace (s : str) : list (nat * str) := finditer_aux 0 0 [] s.

(** [re.finditer(r"\S+|\s+", s)]: the maximal runs of one class. *)
Fixpoint runs_aux (acc : str) (s : str) : list str :=
  match s with
  | [] => match acc with [] => [] | _ => [rev acc] end
  | c :: t =>
      match acc with
      | [] => runs_aux [c] t
      | a :: _ => if Bool.eqb (isspace a) (isspace c) then runs_aux (c :: acc) t
                  else rev acc :: runs_aux [c] t
      end
  end.

Definition finditer_runs (s : str) : list str := runs_aux [] s.

(** ** Merge algorithm (source lines 183-239) *)

(** [lyric_chars[k:k] = list(b)] for [0 <= k <= len(lyric_chars)]. *)
Definition slice_insert (k : nat) (b : str) (l : str) : str :=
  firstn k l ++ b ++ skipn k l.

Definition bracket (chord : str) : str := ["["%char] ++ chord ++ ["]"%char].

Fixpoint merge_loop (chord_positions : list (nat * str)) (lyric_chars : str)
  (offset : nat) : str :=
  match chord_positions with
  | [] => lyric_chars
  | (pos, chord) :: rest =>
      let insert_at := pos + offset in
      (* [insert_at < 0] cannot happen on naturals *)
      let insert_at := if length lyric_chars <? insert_at
                       then length lyric_chars else insert_at in
      let bracketed := bracket chord in
      merge_loop rest (slice_insert insert_at bracketed lyric_chars)
                 (offset + length bracketed)
  end.

Definition chord_positions_of (chord_line : str) : list (nat * str) :=
  filter (fun pt => is_chord_token (snd pt)) (finditer_nonspace chord_line).

Definition merge_chords_and_lyrics (chord_line lyric_line : str) : str :=
  merge_loop (chord_positions_of chord_line) lyric_line 0.

(** ** Standalone formatting (source lines 245-273) *)

(** [str.isspace()]: non-empty and all whitespace. *)
Definition str_isspace (s : str) : bool :=
  match s with [] => false | _ => forallb isspace s end.

Definition format_token (tok : str) : str :=
  if str_isspace tok then tok
  else if is_chord_token tok then bracket tok
  else if is_parenthetical_annotation tok || is_bar_separator tok then tok
  else tok.

Definition format_chord_only_line (line : str) : str :=
  concat (map format_token (finditer_runs line)).

(** ** Top-level pass (source lines 279-329) *)

Definition strip_nonempty (s : str) : bool :=
  match strip s with [] => false | _ => true end.

(** One iteration of the [while i < n] loop: the emitted line and the next
    index, or [None] where Python would raise (an [IndexError]). *)
Definition loop_body (lines : list str) (i : nat) : option (str * nat) :=
  match nth_error lines i with
  | None => None
  | Some cur_line =>
      if is_chord_only_line cur_line then
        if i + 1 <? length lines then
          match nth_error lines (i + 1) with
          | None => None
          | Some next_line =>
              if strip_nonempty next_line && negb (full_match HEADER_RE next_line)
              then Some (merge_chords_and_lyrics cur_line next_line, i + 2)
              else Some (format_chord_only_line cur_line, i + 1)
          end
        else Some (format_chord_only_line cur_line, i + 1)
      else Some (cur_line, i + 1)
  end.

Fixpoint run_loop (fuel : nat) (lines : list str) (i : nat) (out : list str)
  : option (list str) :=
  match fuel with
  | 0 => None
  | S f =>
      if i <? length lines then
        match loop_body lines i with
        | None => None
        | Some (o, i') => run_loop f lines i' (out ++ [o])
        end
      else Some out
  end.

Definition process_lines (lines : list str) : option (list str) :=
  run_loop (S (length lines)) lines 0 [].

(** Big-step semantics of the [while] loop. *)
Inductive exec (lines : list str) : nat -> list str -> list str -> Prop :=
| exec_done : forall i out, length lines <= i -> exec lines i out out
| exec_step : forall i out o i' res,
    i < length lines -> loop_body lines i = Some (o, i') ->
    exec lines i' (out ++ [o]) res -> exec lines i out res.

(** ** The pass as a recursion on the remaining lines

    The loop of [process_lines] only ever looks at [lines[i]] and
    [lines[i + 1]]; [process_rec] is the same pass written by recursion on
    the suffix [lines[i:]], and [process_lines_rec] below shows the two agree. *)
Fixpoint process_rec (lines : list str) : list str :=
  match lines with
  | [] => []
  | cur_line :: rest =>
      if is_chord_only_line cur_line then
        match rest with
        | next_line :: rest' =>
            if strip_nonempty next_line && negb (full_match HEADER_RE next_line)
            then merge_chords_and_lyrics cur_line next_line :: process_rec rest'
            else format_chord_only_line cur_line :: process_rec rest
        | [] => [format_chord_only_line cur_line]
        end
      else cur_line :: process_rec rest
  end.

(** ** Reading and writing lines (source lines 407-418 and 468-476) *)

(** Line boundaries of [str.splitlines()] on ASCII: [\n], [\v], [\f],
    [\r], [\x1c], [\x1d], [\x1e]; [\r\n] is a single boundary. *)
Definition is_linebreak (c : ascii) : bool :=
  let n := code c in ((10 <=? n) && (n <=? 13)) || ((28 <=? n) && (n <=? 30)).

Definition carriage_return : ascii := "013"%char.

(** [str.splitlines()]; [acc] is the current line, reversed. A line is
    emitted at each boundary, and at the end only if it is non-empty. *)
Fixpoint splitlines_aux (acc : str) (s : str) : list str :=
  match s with
  | [] => match acc with [] => [] | _ => [rev acc] end
  | c :: t =>
      if is_linebreak c then
        if Ascii.eqb c carriage_return then
          match t with
          | d :: t' => if Ascii.eqb d newline then rev acc :: splitlines_aux [] t'
                       else rev acc :: splitlines_aux [] t
          | [] => rev acc :: splitlines_aux [] t
          end
        else rev acc :: splitlines_aux [] t
      else splitlines_aux (c :: acc) t
  end.

Definition splitlines (s : str) : list str := splitlines_aux [] s.

(** [sep.join(parts)] *)
Definition py_join (sep : str) (parts : list str) : str :=
  match parts with
  | [] => []
  | p :: rest => p ++ concat (map (fun x => sep ++ x) rest)
  end.

(** The text [write_output_file] writes: ["\n".join(lines) + "\n"]. *)
Definition write_output_file_content (lines : list str) : str :=
  py_join [newline] lines ++ [newline].

(** What [main] writes for the input text [raw], once it is read:
    [process_lines(raw.splitlines())] joined as above. *)
Definition main_content (raw : str) : option str :=
  match process_lines (splitlines raw) with
  | Some converted => Some (write_output_file_content converted)
  | None => None
  end.

(** ** Choosing the output file name (source lines 386-404 and 459) *)

(** [str(n)] for a natural number, most significant digit first;
    the fuel [S n] exceeds the number of digits. *)
Definition digit_char (d : nat) : ascii := ascii_of_nat (48 + d).

Fixpoint dec_aux (fuel n : nat) (acc : str) : str :=
  match fuel with
  | 0 => acc
  | S f =>
      let acc' := digit_char (n mod 10) :: acc in
      if n <? 10 then acc' else dec_aux f (n / 10) acc'
  end.

Definition str_of_nat (n : nat) : str := dec_aux (S n) n [].

(** [int(s)] on a string of decimal digits. *)
Definition int_of_digits (s : str) : nat :=
  fold_left (fun a c => a * 10 + (code c - 48)) s 0.

(** The loop [while True] of [unique_output_filename], from [counter]
    on; [path_exists] is [os.path.exists] on the current directory, [fuel]
    bounds the iterations ([None]: no free name found within [fuel]
    iterations). *)
Fixpoint unique_loop (path_exists : str -> bool) (base_name timestamp ext : str)
  (fuel counter : nat) : option str :=
  match fuel with
  | 0 => None
  | S f =>
      let candidate := base_name ++ s2l "_" ++ timestamp ++ s2l "_"
                       ++ str_of_nat counter ++ ext in
      if negb (path_exists candidate) then Some candidate
      else unique_loop path_exists base_name timestamp ext f (S counter)
  end.

(** [timestamp] is [datetime.now().strftime("%Y%m%d%H%M%S")]. *)
Definition unique_output_filename (path_exists : str -> bool) (timestamp : str)
  (fuel : nat) (base_name ext : str) : option str :=
  let candidate := base_name ++ ext in
  if negb (path_exists candidate) then Some candidate
  else unique_loop path_exists base_name timestamp ext fuel 1.

(** [s.rfind(c)], [None] for [-1]; [i] is the index of the head of [s]. *)
Fixpoint rfind_aux (c : ascii) (i : nat) (s : str) (best : option nat) : option nat :=
  match s with
  | [] => best
  | x :: t => rfind_aux c (S i) t (if Ascii.eqb x c then Some i else best)
  end.

Definition rfind (c : ascii) (s : str) : option nat := rfind_aux c 0 s None.

(** [posixpath.basename]: [p[p.rfind('/') + 1:]]. *)
Definition basename (p : str) : str :=
  match rfind "/" p with
  | None => p
  | Some i => skipn (S i) p
  end.

(** [posixpath.splitext] ([genericpath._splitext] with [sep = '/'],
    [extsep = '.']): split at the last dot after the last slash, unless
    everything between them is dots. *)
Definition splitext (p : str) : str * str :=
  match rfind "." p with
  | None => (p, [])
  | Some dot =>
      let after_sep := match rfind "/" p with None => true | Some s => s <? dot end in
      let filename_index := match rfind "/" p with None => 0 | Some s => S s end in
      if after_sep
         && existsb (fun c => negb (Ascii.eqb c "."))
                    (firstn (dot - filename_index) (skipn filename_index p))
      then (firstn dot p, skipn dot p)
      else (p, [])
  end.

(** The output base name of file mode:
    [os.path.splitext(os.path.basename(input_path))[0] + "_converted"]. *)
Definition file_mode_base (input_path : str) : str :=
  fst (splitext (basename input_path)) ++ s2l "_converted".

(** * Specification-side definitions *)

(** The chord grammar of the specification, in its own words: one letter
    A-G, an optional accidental [#] or [b], an optional quality keyword
    optionally followed by digits, an optional slash bass; letters compared
    case-insensitively. *)
Definition letters_AG : str := s2l "abcdefg".
Definition decimal_digits : str := s2l "0123456789".
Definition quality_keywords : list str :=
  map s2l ["maj"; "min"; "m"; "dim"; "aug"; "sus"; "add"]%string.

Definition spec_accidental (acc : str) : Prop :=
  acc = [] \/ exists a, acc = [a] /\ (a = "#"%char \/ lower a = "b"%char).

Definition spec_quality (q : str) : Prop :=
  q = [] \/ exists kw ds, q = kw ++ ds /\ In (map lower kw) quality_keywords
                          /\ Forall (fun d => In d decimal_digits) ds.

Definition spec_bass (b : str) : Prop :=
  b = [] \/ exists l acc, b = "/"%char :: l :: acc /\ In (lower l) letters_AG
                          /\ spec_accidental acc.

Definition chord_grammar (w : str) : Prop :=
  exists root acc q b, w = root :: acc ++ q ++ b /\ In (lower root) letters_AG
    /\ spec_accidental acc /\ spec_quality q /\ spec_bass b.

(** The layout of a line as the specification describes it: whitespace
    characters and maximal non-whitespace tokens, each token listed with its
    0-based start offset; [o] is the offset of the head of the remaining
    text. A token is non-empty, has no whitespace, and is followed by a
    whitespace character or by the end of the line; it is preceded by the
    start of the line or by a whitespace character, since a token is only
    reached after a gap or at the start. *)
Inductive tok_layout : nat -> str -> list (nat * str) -> Prop :=
| tl_end : forall o g,
    Forall (fun c => isspace c = true) g -> tok_layout o g []
| tl_gap : forall o c s toks,
    isspace c = true -> tok_layout (S o) s toks -> tok_layout o (c :: s) toks
| tl_tok : forall o t s toks,
    t <> [] -> Forall (fun c => isspace c = false) t ->
    (s = [] \/ exists c s', s = c :: s' /\ isspace c = true) ->
    tok_layout (o + length t) s toks -> tok_layout o (t ++ s) ((o, t) :: toks).

(** The merge step of the specification: each token [(p, t)] in turn is
    inserted as ["[" ++ t ++ "]"] at [p + running], clamped into
    [[0, length cur]], and [running] grows by [length t + 2]. *)
Fixpoint spec_merge (toks : list (nat * str)) (cur : str) (running : nat) : str :=
  match toks with
  | [] => cur
  | (p, t) :: rest =>
      let idx := Nat.min (p + running) (length cur) in
      spec_merge rest (firstn idx cur ++ ["["%char] ++ t ++ ["]"%char] ++ skipn idx cur)
                 (running + (length t + 2))
  end.

Definition offsets_increasing (toks : list (nat * str)) : Prop :=
  StronglySorted (fun a b => fst a < fst b) toks.

(** Occurrences of a character in a string. *)
Definition count_char (c : ascii) (s : str) : nat := length (filter (Ascii.eqb c) s).

(** Characters a regex can consume at all. *)
Fixpoint re_allows (r : re) (c : ascii) : bool :=
  match r with
  | Eps => false
  | Chr p | StarC p => p c
  | Seq r1 r2 | Alt r1 r2 => re_allows r1 c || re_allows r2 c
  | Opt r1 => re_allows r1 c
  end.

(** Text a merge inserts for a list of chord positions. *)
Definition inserted_len (toks : list (nat * str)) : nat :=
  list_sum (map (fun pt => length (bracket (snd pt))) toks).

(** A string cut into lyric pieces, each followed by an inserted piece. *)
Definition woven (pairs : list (str * str)) : str :=
  concat (map (fun sb => fst sb ++ snd sb) pairs).

(** A run of one character class: non-empty, every character whitespace
    ([b = true]) or every character non-whitespace ([b = false]). *)
Definition run_of (b : bool) (r : str) : Prop :=
  r <> [] /\ Forall (fun c => isspace c = b) r.

(** Consecutive runs alternate between the two classes, so each is maximal. *)
Fixpoint alternating_runs (b : bool) (rs : list str) : Prop :=
  match rs with
  | [] => True
  | r :: rest => run_of b r /\ alternating_runs (negb b) rest
  end.

(** A structural section header, in the specification's words: optional
    whitespace, a bracketed text spanning the line, optional whitespace. *)
Definition section_header (s : str) : Prop :=
  exists pre inner post,
    s = pre ++ ["["%char] ++ inner ++ ["]"%char] ++ post /\
    Forall (fun c => isspace c = true) pre /\ Forall (fun c => isspace c = true) post.

(** Lines as [str.splitlines()] produces them hold no newline. *)
Definition no_newlines (lines : list str) : bool :=
  forallb (fun l => negb (existsb (Ascii.eqb newline) l)) lines.

(** A regex is case-insensitive when each of its character classes is. *)
Fixpoint ci_re (r : re) : Prop :=
  match r with
  | Eps => True
  | Chr p | StarC p => forall c, p (lower c) = p c
  | Seq r1 r2 | Alt r1 r2 => ci_re r1 /\ ci_re r2
  | Opt r1 => ci_re r1
  end.

(** * Lemmas on characters, [strip] and the regex engine *)

(** [lia] on goals whose context mentions [isspace] facts: drop those first. *)
Ltac arith :=
  repeat match goal with H : isspace _ = _ |- _ => clear H end; lia.

Ltac ascii_cases c := destruct c as [[] [] [] [] [] [] [] []]; reflexivity.

Lemma isspace_lower c : isspace (lower c) = isspace c.
Proof. ascii_cases c. Qed.

Lemma lower_idem c : lower (lower c) = lower c.
Proof. ascii_cases c. Qed.

Lemma note_letter_lower c : note_letter (lower c) = note_letter c.
Proof. ascii_cases c. Qed.

Lemma isdigit_lower c : isdigit (lower c) = isdigit c.
Proof. ascii_cases c. Qed.

Lemma newline_lower c : Ascii.eqb (lower c) newline = Ascii.eqb c newline.
Proof. ascii_cases c. Qed.

Lemma hash_lower c : Ascii.eqb (lower c) "#" = Ascii.eqb c "#".
Proof. ascii_cases c. Qed.

Lemma note_letter_spec c : note_letter c = existsb (Ascii.eqb (lower c)) letters_AG.
Proof. ascii_cases c. Qed.

Lemma isdigit_spec c : isdigit c = existsb (Ascii.eqb c) decimal_digits.
Proof. ascii_cases c. Qed.

Lemma in_existsb_ascii (x : ascii) l : In x l <-> existsb (Ascii.eqb x) l = true.
Proof.
  rewrite existsb_exists. split.
  - intros H. exists x. split; [exact H | apply Ascii.eqb_refl].
  - intros [y [Hy Heq]]. apply Ascii.eqb_eq in Heq. subst. exact Hy.
Qed.

Lemma lstrip_head s c t : lstrip s = c :: t -> isspace c = false.
Proof.
  induction s as [|d s IH]; simpl; [discriminate|].
  destruct (isspace d) eqn:E; [exact IH|]. intros H; injection H; intros; subst; exact E.
Qed.

Lemma strip_last s w c : strip s = w ++ [c] -> isspace c = false.
Proof.
  unfold strip. intros H.
  apply (f_equal (@rev ascii)) in H. rewrite rev_involutive, rev_app_distr in H.
  simpl in H. eapply lstrip_head; exact H.
Qed.

Lemma lstrip_map_lower s : lstrip (map lower s) = map lower (lstrip s).
Proof.
  induction s as [|c s IH]; simpl; [reflexivity|].
  rewrite isspace_lower. destruct (isspace c); [exact IH | reflexivity].
Qed.

Lemma strip_map_lower s : strip (map lower s) = map lower (strip s).
Proof.
  unfold strip. rewrite lstrip_map_lower, <- map_rev, lstrip_map_lower, map_rev.
  reflexivity.
Qed.

Lemma star_rems_spec p s rem :
  In rem (star_rems p s) <-> exists w, s = w ++ rem /\ Forall (fun c => p c = true) w.
Proof.
  revert rem; induction s as [|c s IH]; intros rem; simpl.
  - split.
    + intros [H|[]]. subst. exists []. split; [reflexivity | constructor].
    + intros [w [Hw _]]. left. destruct w; simpl in Hw; [exact Hw | discriminate].
  - split.
    + intros [H|H].
      * subst. exists []. split; [reflexivity | constructor].
      * destruct (p c) eqn:E; [|destruct H].
        apply IH in H. destruct H as [w [Hw Hf]]. subst.
        exists (c :: w). split; [reflexivity | constructor; assumption].
    + intros [w [Hw Hf]]. destruct w as [|d w].
      * left. exact Hw.
      * right. injection Hw; intros; subst. inversion Hf; subst.
        rewrite H1. apply IH. exists w. split; [reflexivity | assumption].
Qed.

Lemma matches_spec r s rem :
  In rem (matches r s) <-> exists w, s = w ++ rem /\ lang r w.
Proof.
  revert s rem; induction r as [| p | r1 IH1 r2 IH2 | r1 IH1 r2 IH2 | r1 IH1 | p];
    intros s rem; simpl.
  - split.
    + intros [H|[]]; subst. exists []. split; reflexivity.
    + intros [w [Hw Hl]]; subst. left; reflexivity.
  - split.
    + destruct s as [|c t]; [intros []|].
      destruct (p c) eqn:E; [|intros []].
      intros [H|[]]; subst. exists [c]. split; [reflexivity|]. exists c. split; auto.
    + intros [w [Hw [c [Hc Hp]]]]; subst. simpl. rewrite Hp. left; reflexivity.
  - rewrite in_flat_map. split.
    + intros [m [Hm Hr]]. apply IH1 in Hm. apply IH2 in Hr.
      destruct Hm as [w1 [E1 L1]]; destruct Hr as [w2 [E2 L2]]; subst.
      exists (w1 ++ w2). split; [rewrite ?app_assoc; reflexivity|]. exists w1, w2. auto.
    + intros [w [Hw [w1 [w2 [E [L1 L2]]]]]]; subst.
      exists (w2 ++ rem). split.
      * apply IH1. exists w1. split; [rewrite ?app_assoc; reflexivity | exact L1].
      * apply IH2. exists w2. auto.
  - rewrite in_app_iff, IH1, IH2. split.
    + intros [[w [E L]]|[w [E L]]]; exists w; auto.
    + intros [w [E [L|L]]]; [left|right]; exists w; auto.
  - split.
    + intros [H|H].
      * subst. exists []. auto.
      * apply IH1 in H. destruct H as [w [E L]]. exists w. auto.
    + intros [w [E [L|L]]].
      * subst. left; reflexivity.
      * right. apply IH1. exists w. auto.
  - apply star_rems_spec.
Qed.

Lemma at_end_spec rem : at_end rem = true <-> rem = [] \/ rem = [newline].
Proof.
  destruct rem as [|c [|d t]]; simpl.
  - split; auto.
  - rewrite Ascii.eqb_eq. split; [intros ->; auto | intros [H|H]; congruence].
  - split; [discriminate | intros [H|H]; discriminate].
Qed.

Lemma full_match_spec r s :
  full_match r s = true <->
  exists w rem, s = w ++ rem /\ lang r w /\ (rem = [] \/ rem = [newline]).
Proof.
  unfold full_match. rewrite existsb_exists. split.
  - intros [rem [Hin Hend]]. apply matches_spec in Hin. destruct Hin as [w [E L]].
    apply at_end_spec in Hend. exists w, rem. auto.
  - intros [w [rem [E [L Hend]]]]. exists rem. split.
    + apply matches_spec. exists w. auto.
    + apply at_end_spec. exact Hend.
Qed.

(** A full match on a stripped subject leaves no final newline. *)
Lemma full_match_strip r s :
  full_match r (strip s) = true <-> lang r (strip s).
Proof.
  rewrite full_match_spec. split.
  - intros [w [rem [E [L [H|H]]]]]; subst.
    + rewrite app_nil_r in E. rewrite E. exact L.
    + apply strip_last in E. discriminate.
  - intros L. exists (strip s), []. rewrite app_nil_r. auto.
Qed.

(** ** Languages of the pieces of [CHORD_TOKEN_RE] *)

Lemma ci_eq_true a b : ci_eq a b = true <-> lower b = lower a.
Proof. unfold ci_eq. rewrite Ascii.eqb_eq. split; auto. Qed.

Lemma lang_lit_ci s w : lang (lit_ci s) w <-> map lower w = map lower s.
Proof.
  revert w; induction s as [|c s IH]; intros w; simpl.
  - destruct w; simpl; split; congruence.
  - split.
    + intros [w1 [w2 [E [[d [Ed Hd]] L]]]]; subst. simpl.
      apply ci_eq_true in Hd. apply IH in L. rewrite Hd, L. reflexivity.
    + destruct w as [|d w]; simpl; [discriminate|].
      intros H; injection H; intros Ht Hh.
      exists [d], w. split; [reflexivity|]. split.
      * exists d. split; [reflexivity|]. apply ci_eq_true. exact Hh.
      * apply IH. exact Ht.
Qed.

Lemma map_lower_single w x : map lower w = [x] <-> exists a, w = [a] /\ lower a = x.
Proof.
  destruct w as [|a [|b w]]; simpl; split.
  - discriminate.
  - intros [a [H _]]; discriminate.
  - intros H; injection H; intros; subst. exists a; auto.
  - intros [a' [H1 H2]]; injection H1; intros; subst. reflexivity.
  - discriminate.
  - intros [a' [H _]]; discriminate.
Qed.

Lemma lower_is_hash a : lower a = "#"%char <-> a = "#"%char.
Proof.
  rewrite <- Ascii.eqb_eq, hash_lower, Ascii.eqb_eq. reflexivity.
Qed.

Lemma slash_lower c : Ascii.eqb (lower c) "/" = Ascii.eqb c "/".
Proof. ascii_cases c. Qed.

Lemma lower_is_slash a : lower a = "/"%char <-> a = "/"%char.
Proof.
  rewrite <- Ascii.eqb_eq, slash_lower, Ascii.eqb_eq. reflexivity.
Qed.

Lemma note_letter_true c : note_letter c = true <-> In (lower c) letters_AG.
Proof. rewrite note_letter_spec, in_existsb_ascii. reflexivity. Qed.

Lemma lang_accidental w : lang accidental_re w <-> spec_accidental w.
Proof.
  unfold accidental_re, spec_accidental. cbn [lang]. rewrite !lang_lit_ci.
  cbn. rewrite !map_lower_single. split.
  - intros [H|[[a [H1 H2]]|[a [H1 H2]]]]; [left; exact H| |]; right; exists a;
      split; auto. left. apply lower_is_hash. exact H2.
  - intros [H|[a [H1 [H2|H2]]]]; [left; exact H| |]; right; [left|right];
      exists a; split; auto. apply lower_is_hash. exact H2.
Qed.

Lemma lang_quality_kw kw : lang quality_kw_re kw <-> In (map lower kw) quality_keywords.
Proof.
  unfold quality_kw_re. cbn [lang]. rewrite !lang_lit_ci. cbn.
  split; intros H.
  - destruct H as [H|[H|[H|[H|[H|[H|H]]]]]]; rewrite H; simpl; tauto.
  - destruct H as [H|[H|[H|[H|[H|[H|[H|[]]]]]]]]; rewrite <- H; tauto.
Qed.

Lemma lang_digits ds :
  lang (StarC isdigit) ds <-> Forall (fun d => In d decimal_digits) ds.
Proof.
  cbn [lang]. split; intros H; (eapply Forall_impl; [|exact H]); intros d Hd;
    cbv beta in *.
  - rewrite isdigit_spec in Hd. apply in_existsb_ascii. exact Hd.
  - rewrite isdigit_spec. apply in_existsb_ascii. exact Hd.
Qed.

Lemma lang_quality q : lang quality_re q <-> spec_quality q.
Proof.
  unfold quality_re, spec_quality. cbn [lang]. split.
  - intros [H|[kw [ds [E [K D]]]]]; [left; exact H|right].
    exists kw, ds. split; [exact E|]. split.
    + apply lang_quality_kw. exact K.
    + apply lang_digits. exact D.
  - intros [H|[kw [ds [E [K D]]]]]; [left; exact H|right].
    exists kw, ds. split; [exact E|]. split.
    + apply lang_quality_kw. exact K.
    + apply (proj2 (lang_digits ds)). exact D.
Qed.

Lemma lang_slash_bass b : lang slash_bass_re b <-> spec_bass b.
Proof.
  unfold slash_bass_re, spec_bass. cbn [lang]. setoid_rewrite lang_lit_ci.
  change (map lower (s2l "/")) with ["/"%char].
  split.
  - intros [H|[w1 [w2 [E [S1 [w3 [w4 [E2 [[l [El Hl]] A]]]]]]]]]; [left; exact H|right].
    apply map_lower_single in S1. destruct S1 as [a [Ea Ha]].
    apply (proj1 (lower_is_slash a)) in Ha. subst.
    exists l, w4. split; [reflexivity|]. split.
    + apply note_letter_true. exact Hl.
    + apply lang_accidental. exact A.
  - intros [H|[l [acc [E [Hl A]]]]]; [left; exact H|right]. subst.
    exists ["/"%char], (l :: acc). split; [reflexivity|]. split; [reflexivity|].
    exists [l], acc. split; [reflexivity|]. split.
    + exists l. split; [reflexivity|]. apply note_letter_true. exact Hl.
    + apply lang_accidental. exact A.
Qed.

Lemma lang_chord_grammar w : lang CHORD_TOKEN_RE w <-> chord_grammar w.
Proof.
  unfold CHORD_TOKEN_RE, chord_grammar. cbn [lang]. split.
  - intros [w1 [w2 [E [[c [Ec Hc]] [w3 [w4 [E2 [A [w5 [w6 [E3 [Q B]]]]]]]]]]]].
    subst. exists c, w3, w5, w6. split; [reflexivity|].
    rewrite <- note_letter_true, <- lang_accidental, <- lang_quality,
      <- lang_slash_bass. auto.
  - intros [root [acc [q [b [E [R [A [Q B]]]]]]]]. subst.
    exists [root], (acc ++ q ++ b). split; [reflexivity|]. split.
    + exists root. split; [reflexivity|]. apply note_letter_true. exact R.
    + exists acc, (q ++ b). split; [reflexivity|]. split; [apply lang_accidental; exact A|].
      exists q, b. split; [reflexivity|]. split.
      * apply lang_quality. exact Q.
      * apply lang_slash_bass. exact B.
Qed.

(** ** Case-insensitivity and disjointness of the classifiers *)

Lemma ci_eq_lower a c : ci_eq a (lower c) = ci_eq a c.
Proof. unfold ci_eq. rewrite lower_idem. reflexivity. Qed.

Lemma ci_re_chord : ci_re CHORD_TOKEN_RE.
Proof.
  cbv [CHORD_TOKEN_RE quality_re slash_bass_re accidental_re quality_kw_re
       s2l list_ascii_of_string lit_ci ci_re].
  repeat split; intros c;
    first [apply ci_eq_lower | apply note_letter_lower | apply isdigit_lower].
Qed.

Lemma lang_ci r :
  ci_re r -> forall w w', map lower w' = map lower w -> lang r w -> lang r w'.
Proof.
  induction r as [| p | r1 IH1 r2 IH2 | r1 IH1 r2 IH2 | r1 IH1 | p];
    intros Hci w w' Hm L; simpl in *.
  - subst. destruct w'; [reflexivity | discriminate].
  - destruct L as [c [Ec Hc]]. subst. simpl in Hm.
    apply map_lower_single in Hm. destruct Hm as [a [Ea Ha]]. subst.
    exists a. split; [reflexivity|]. rewrite <- Hci, Ha, Hci. exact Hc.
  - destruct Hci as [C1 C2]. destruct L as [w1 [w2 [E [L1 L2]]]]. subst.
    rewrite map_app in Hm. apply map_eq_app in Hm.
    destruct Hm as [w1' [w2' [E [H1 H2]]]]. subst.
    exists w1', w2'. split; [reflexivity|]. split; eauto.
  - destruct Hci as [C1 C2]. destruct L as [L|L]; [left|right]; eauto.
  - destruct L as [L|L].
    + subst. left. destruct w'; [reflexivity | discriminate].
    + right. eauto.
  - revert w Hm L. induction w' as [|a w' IH]; intros w Hm L; [constructor|].
    destruct w as [|b w]; [discriminate|]. simpl in Hm. injection Hm; intros Ht Hh.
    inversion L; subst. constructor.
    + rewrite <- Hci, Hh, Hci. assumption.
    + eapply IH; eauto.
Qed.

Lemma lang_chord_nonempty : ~ lang CHORD_TOKEN_RE [].
Proof.
  intros [w1 [w2 [E [[c [Ec _]] _]]]]. subst. discriminate.
Qed.

Lemma is_chord_token_lang t : is_chord_token t = true <-> lang CHORD_TOKEN_RE (strip t).
Proof.
  destruct t as [|c t].
  - simpl. split; [discriminate | intros L; exfalso; exact (lang_chord_nonempty L)].
  - apply full_match_strip.
Qed.

Lemma is_chord_token_lower t : is_chord_token (map lower t) = is_chord_token t.
Proof.
  assert (Hm : map lower (strip (map lower t)) = map lower (strip t)).
  { rewrite strip_map_lower, map_map. apply map_ext. intros a. apply lower_idem. }
  destruct (is_chord_token (map lower t)) eqn:E1, (is_chord_token t) eqn:E2;
    try reflexivity.
  - apply is_chord_token_lang in E1.
    assert (L : lang CHORD_TOKEN_RE (strip t)).
    { eapply lang_ci; [apply ci_re_chord | | exact E1]. symmetry. exact Hm. }
    apply is_chord_token_lang in L. congruence.
  - apply is_chord_token_lang in E2.
    assert (L : lang CHORD_TOKEN_RE (strip (map lower t))).
    { eapply lang_ci; [apply ci_re_chord | exact Hm | exact E2]. }
    apply is_chord_token_lang in L. congruence.
Qed.

Lemma lang_seq_chr_head p r w :
  lang (Seq (Chr p) r) w -> exists c t, w = c :: t /\ p c = true.
Proof.
  intros [w1 [w2 [E [[c [Ec Hc]] _]]]]. subst. exists c, w2. auto.
Qed.

Lemma chord_head t :
  is_chord_token t = true -> exists c u, strip t = c :: u /\ note_letter c = true.
Proof.
  intros H. apply is_chord_token_lang in H. exact (lang_seq_chr_head _ _ _ H).
Qed.

Lemma bar_head t :
  is_bar_separator t = true -> exists c u, strip t = c :: u /\ Ascii.eqb "|" c = true.
Proof.
  unfold is_bar_separator. intros H. apply full_match_strip in H.
  exact (lang_seq_chr_head _ _ _ H).
Qed.

Lemma paren_head t :
  is_parenthetical_annotation t = true ->
  exists c u, strip t = c :: u /\ Ascii.eqb "(" c = true.
Proof.
  unfold is_parenthetical_annotation. intros H. apply full_match_strip in H.
  exact (lang_seq_chr_head _ _ _ H).
Qed.

Lemma strip_bars n : strip (repeat "|"%char (S n)) = repeat "|"%char (S n).
Proof.
  unfold strip. change (lstrip (repeat "|"%char (S n))) with (repeat "|"%char (S n)).
  rewrite rev_repeat. change (lstrip (repeat "|"%char (S n))) with (repeat "|"%char (S n)).
  apply rev_repeat.
Qed.

(** * Claims *)

(** C3. [is_chord_token] holds exactly when the whole stripped token belongs
    to the chord grammar (a letter A-G, optional [#]/[b], optional quality
    keyword with optional digits, optional slash bass, all compared
    case-insensitively); and a token classifies as its lower-cased form does,
    so two tokens differing only in letter case classify identically. *)
Theorem is_chord_token_spec (token : str) :
  (is_chord_token token = true <-> chord_grammar (strip token)) /\
  is_chord_token (map lower token) = is_chord_token token.
Proof.
  split.
  - rewrite is_chord_token_lang. apply lang_chord_grammar.
  - apply is_chord_token_lower.
Qed.

(** C7. At most one of [is_chord_token], [is_bar_separator] and
    [is_parenthetical_annotation] holds of any token; in particular a token
    made only of [|] characters is never a chord. *)
Theorem token_classes_exclusive (token : str) (n : nat) :
  length (filter (fun b : bool => b)
    [is_chord_token token; is_bar_separator token;
     is_parenthetical_annotation token]) <= 1 /\
  is_chord_token (repeat "|"%char (S n)) = false.
Proof.
  split.
  - destruct (is_chord_token token) eqn:Ec, (is_bar_separator token) eqn:Eb,
      (is_parenthetical_annotation token) eqn:Ep; simpl; try lia; exfalso.
    all: first
      [ destruct (chord_head _ Ec) as [c [u [E1 H1]]];
        destruct (bar_head _ Eb) as [c' [u' [E2 H2]]]
      | destruct (chord_head _ Ec) as [c [u [E1 H1]]];
        destruct (paren_head _ Ep) as [c' [u' [E2 H2]]]
      | destruct (bar_head _ Eb) as [c [u [E1 H1]]];
        destruct (paren_head _ Ep) as [c' [u' [E2 H2]]] ];
      rewrite E1 in E2; injection E2; intros; subst;
      apply Ascii.eqb_eq in H2; subst; try apply Ascii.eqb_eq in H1; subst;
      discriminate.
  - destruct (is_chord_token (repeat "|"%char (S n))) eqn:E; [|reflexivity].
    destruct (chord_head _ E) as [c [u [E1 H1]]].
    rewrite strip_bars in E1. simpl in E1. injection E1; intros; subst.
    discriminate.
Qed.

(** ** The [\S+] scanner produces the token layout *)

Lemma finditer_aux_layout s :
  (forall pos start, tok_layout pos s (finditer_aux pos start [] s)) /\
  (forall pos start acc, acc <> [] ->
     exists t1 s' rest,
       s = t1 ++ s' /\ Forall (fun c => isspace c = false) t1 /\
       (s' = [] \/ exists c s'', s' = c :: s'' /\ isspace c = true) /\
       finditer_aux pos start acc s = (start, rev acc ++ t1) :: rest /\
       tok_layout (pos + length t1) s' rest).
Proof.
  induction s as [|c s [IH1 IH2]].
  - split.
    + intros pos start. simpl. constructor. constructor.
    + intros pos start acc Hacc. exists [], [], []. simpl.
      destruct acc as [|a acc]; [contradiction|].
      rewrite app_nil_r, Nat.add_0_r. repeat split; auto. constructor. constructor.
  - split.
    + intros pos start. simpl. destruct (isspace c) eqn:Ec.
      * apply tl_gap; [exact Ec | apply IH1].
      * destruct (IH2 (S pos) pos [c] ltac:(discriminate))
          as [t1 [s' [rest [E [F [B [Ef L]]]]]]].
        rewrite Ef. subst s. change (c :: t1 ++ s') with ((c :: t1) ++ s').
        simpl rev. apply tl_tok.
        -- discriminate.
        -- constructor; assumption.
        -- exact B.
        -- simpl. rewrite <- Nat.add_succ_comm. exact L.
    + intros pos start acc Hacc. simpl. destruct (isspace c) eqn:Ec.
      * exists [], (c :: s), (finditer_aux (S pos) start [] s).
        destruct acc as [|a acc']; [contradiction|].
        rewrite app_nil_r, Nat.add_0_r. repeat split; auto.
        -- right. exists c, s. auto.
        -- apply tl_gap; [exact Ec | apply IH1].
      * destruct acc as [|a acc']; [contradiction|].
        destruct (IH2 (S pos) start (c :: a :: acc') ltac:(discriminate))
          as [t1 [s' [rest [E [F [B [Ef L]]]]]]].
        exists (c :: t1), s', rest. subst s. repeat split; auto.
        -- rewrite Ef. simpl. rewrite <- !app_assoc. reflexivity.
        -- simpl. rewrite <- Nat.add_succ_comm. exact L.
Qed.

Lemma finditer_nonspace_layout line : tok_layout 0 line (finditer_nonspace line).
Proof. apply (proj1 (finditer_aux_layout line)). Qed.

Lemma tok_layout_bound o s toks :
  tok_layout o s toks -> Forall (fun pt => o <= fst pt) toks.
Proof.
  induction 1 as [o g Hg | o c s toks Hc L IH | o t s toks Ht Hf Hs L IH].
  - constructor.
  - eapply Forall_impl; [|exact IH]. intros pt H; simpl in H; lia.
  - constructor; [simpl; lia|]. eapply Forall_impl; [|exact IH].
    intros pt H. destruct t; [contradiction|]. simpl in H; lia.
Qed.

Lemma tok_layout_sorted o s toks : tok_layout o s toks -> offsets_increasing toks.
Proof.
  unfold offsets_increasing.
  induction 1 as [o g Hg | o c s toks Hc L IH | o t s toks Ht Hf Hs L IH].
  - constructor.
  - exact IH.
  - constructor; [exact IH|]. apply tok_layout_bound in L.
    eapply Forall_impl; [|exact L]. intros pt H.
    destruct t; [contradiction|]. simpl in *; lia.
Qed.

Lemma tok_layout_text o s toks :
  tok_layout o s toks ->
  Forall (fun pt => firstn (length (snd pt)) (skipn (fst pt - o) s) = snd pt
                    /\ Forall (fun c => isspace c = false) (snd pt)) toks.
Proof.
  induction 1 as [o g Hg | o c s toks Hc L IH | o t s toks Ht Hf Hs L IH].
  - constructor.
  - apply tok_layout_bound in L. rewrite Forall_forall in *.
    intros [p u] Hin. specialize (IH _ Hin). specialize (L _ Hin).
    simpl in *. destruct IH as [IH F]. split; [|exact F].
    replace (p - o) with (S (p - S o)) by arith. exact IH.
  - constructor.
    + simpl. rewrite Nat.sub_diag. simpl. split; [|exact Hf].
      rewrite firstn_app, Nat.sub_diag, firstn_all. simpl. apply app_nil_r.
    + apply tok_layout_bound in L. rewrite Forall_forall in *.
      intros [p u] Hin. specialize (IH _ Hin). specialize (L _ Hin).
      simpl in *. destruct IH as [IH F]. split; [|exact F].
      replace (p - o) with (length t + (p - (o + length t))) by arith.
      rewrite skipn_app, skipn_all2 by arith. simpl.
      replace (length t + (p - (o + length t)) - length t)
        with (p - (o + length t)) by arith. exact IH.
Qed.

(** The layout determines the token list: it is the unique list of maximal
    tokens of the line. *)
Lemma nonspace_space_nil t :
  Forall (fun c => isspace c = false) t -> Forall (fun c => isspace c = true) t -> t = [].
Proof.
  destruct t as [|a t]; [reflexivity|]. intros H1 H2.
  inversion H1; inversion H2; congruence.
Qed.

Lemma tok_layout_space_only o g l :
  tok_layout o g l -> Forall (fun c => isspace c = true) g -> l = [].
Proof.
  induction 1 as [o g Hg | o c s toks Hc L IH | o t s toks Ht Hf Hs L IH]; intros Hsp.
  - reflexivity.
  - inversion Hsp; subst. apply IH. assumption.
  - exfalso. apply Ht. apply nonspace_space_nil; [exact Hf|].
    apply Forall_app in Hsp. apply Hsp.
Qed.

Lemma run_split t s t' s' :
  t ++ s = t' ++ s' ->
  Forall (fun c => isspace c = false) t -> Forall (fun c => isspace c = false) t' ->
  (s = [] \/ exists c s0, s = c :: s0 /\ isspace c = true) ->
  (s' = [] \/ exists c s0, s' = c :: s0 /\ isspace c = true) ->
  t = t' /\ s = s'.
Proof.
  revert t'. induction t as [|a t IH]; intros t' E Ft Ft' Hs Hs'.
  - destruct t' as [|b t']; [split; [reflexivity | exact E]|].
    exfalso. simpl in E. subst s. destruct Hs as [H|[c [s0 [H Hc]]]]; [discriminate|].
    injection H; intros; subst. inversion Ft'; congruence.
  - destruct t' as [|b t'].
    + exfalso. simpl in E. subst s'. destruct Hs' as [H|[c [s0 [H Hc]]]]; [discriminate|].
      injection H; intros; subst. inversion Ft; congruence.
    + simpl in E. injection E; intros E' Hab; subst b.
      inversion Ft; inversion Ft'; subst.
      destruct (IH t' E' ltac:(assumption) ltac:(assumption) Hs Hs') as [-> ->].
      split; reflexivity.
Qed.

Lemma tok_layout_unique o s l1 :
  tok_layout o s l1 -> forall l2, tok_layout o s l2 -> l1 = l2.
Proof.
  induction 1 as [o g Hg | o c s toks Hc L IH | o t s toks Ht Hf Hs L IH];
    intros l2 H2.
  - symmetry. eapply tok_layout_space_only; eassumption.
  - inversion H2 as [o' g' Hg' | o' c' s' toks' Hc' L' | o' t' s' toks' Ht' Hf' Hs' L'];
      subst.
    + eapply tok_layout_space_only; [exact L|]. inversion Hg'; assumption.
    + apply IH. exact L'.
    + exfalso. destruct t' as [|x t']; [contradiction|].
      match goal with H : (x :: t') ++ s' = c :: s |- _ =>
        rewrite <- app_comm_cons in H; injection H end.
      intros; subst. inversion Hf'; congruence.
  - inversion H2 as [o' g' Hg' | o' c' s' toks' Hc' L' | o' t' s' toks' Ht' Hf' Hs' L'];
      subst.
    + exfalso. apply Ht. apply nonspace_space_nil; [exact Hf|].
      apply Forall_app in Hg'. apply Hg'.
    + exfalso. destruct t as [|x t]; [contradiction|].
      match goal with H : c' :: s' = (x :: t) ++ s |- _ =>
        rewrite <- app_comm_cons in H; injection H end.
      intros; subst. inversion Hf; congruence.
    + try match goal with H : t' ++ s' = t ++ s |- _ => symmetry in H end.
      match goal with H : t ++ s = t' ++ s' |- _ =>
        destruct (run_split _ _ _ _ H Hf Hf' Hs Hs') as [-> ->] end.
      f_equal. apply IH. exact L'.
Qed.

(** ** The merge loop *)

Lemma clamp_min a b : (if a <? b then a else b) = Nat.min b a.
Proof. destruct (Nat.ltb_spec a b); lia. Qed.

Lemma length_bracket t : length (bracket t) = length t + 2.
Proof. unfold bracket. rewrite !length_app. simpl. lia. Qed.

Lemma list_sum_cons a l : list_sum (a :: l) = a + list_sum l.
Proof. reflexivity. Qed.

Lemma list_sum_nil : list_sum [] = 0.
Proof. reflexivity. Qed.

Lemma merge_loop_spec_merge toks : forall cur ro,
  merge_loop toks cur ro = spec_merge toks cur ro.
Proof.
  induction toks as [|[p t] rest IH]; intros cur ro; cbn [merge_loop spec_merge]; [reflexivity|].
  rewrite IH, clamp_min, length_bracket. unfold slice_insert, bracket.
  rewrite <- !app_assoc. reflexivity.
Qed.

Lemma length_slice_insert k b l : length (slice_insert k b l) = length l + length b.
Proof.
  unfold slice_insert. rewrite !length_app.
  rewrite <- (firstn_skipn k l) at 3. rewrite length_app. lia.
Qed.

Lemma count_slice_insert c k b l :
  count_char c (slice_insert k b l) = count_char c l + count_char c b.
Proof.
  unfold count_char, slice_insert. rewrite !filter_app, !length_app.
  rewrite <- (firstn_skipn k l) at 3. rewrite filter_app, length_app. lia.
Qed.

Lemma merge_loop_length toks : forall cur ro,
  length (merge_loop toks cur ro) = length cur + inserted_len toks.
Proof.
  unfold inserted_len.
  induction toks as [|[p t] rest IH]; intros cur ro;
    cbn [merge_loop map fst snd]; rewrite ?list_sum_cons, ?list_sum_nil; [lia|].
  rewrite IH, length_slice_insert. lia.
Qed.

Lemma merge_loop_count c toks : forall cur ro,
  count_char c (merge_loop toks cur ro) =
  count_char c cur + list_sum (map (fun pt => count_char c (bracket (snd pt))) toks).
Proof.
  induction toks as [|[p t] rest IH]; intros cur ro;
    cbn [merge_loop map fst snd]; rewrite ?list_sum_cons, ?list_sum_nil; [lia|].
  rewrite IH, count_slice_insert. lia.
Qed.

Lemma merge_loop_app l1 : forall l2 cur ro,
  merge_loop (l1 ++ l2) cur ro = merge_loop l2 (merge_loop l1 cur ro) (ro + inserted_len l1).
Proof.
  unfold inserted_len.
  induction l1 as [|[p t] rest IH]; intros l2 cur ro;
    cbn [merge_loop map fst snd app]; rewrite ?list_sum_cons, ?list_sum_nil.
  - rewrite Nat.add_0_r. reflexivity.
  - rewrite IH. f_equal. lia.
Qed.

Lemma merge_loop_tail n post : forall cur ro,
  Forall (fun pt => n < fst pt) post -> length cur = n + ro ->
  merge_loop post cur ro = cur ++ concat (map (fun pt => bracket (snd pt)) post).
Proof.
  induction post as [|[p t] rest IH]; intros cur ro Hf Hl;
    cbn [merge_loop map concat fst snd].
  - rewrite app_nil_r. reflexivity.
  - inversion Hf; subst. cbn [fst] in *.
    replace (if length cur <? p + ro then length cur else p + ro) with (length cur)
      by (destruct (Nat.ltb_spec (length cur) (p + ro)); lia).
    unfold slice_insert. rewrite firstn_all, skipn_all, app_nil_r.
    rewrite IH; [rewrite <- app_assoc; reflexivity | assumption |].
    rewrite length_app. lia.
Qed.

Lemma slice_insert_after p r k b :
  length p <= k ->
  slice_insert k b (p ++ r) =
  p ++ (firstn (k - length p) r ++ b ++ skipn (k - length p) r).
Proof.
  intros H. unfold slice_insert.
  rewrite firstn_app, skipn_app, firstn_all2, skipn_all2 by lia.
  rewrite <- !app_assoc. reflexivity.
Qed.

Lemma length_woven pairs :
  length (woven pairs) = length (concat (map fst pairs)) + length (concat (map snd pairs)).
Proof.
  unfold woven. induction pairs as [|[a b] ps IH]; simpl; [reflexivity|].
  rewrite !length_app, IH. lia.
Qed.

Lemma merge_loop_woven toks : forall pairs rest ro lo,
  offsets_increasing toks -> Forall (fun pt => lo <= fst pt) toks ->
  length (woven pairs) <= lo + ro ->
  exists pairs' rest',
    merge_loop toks (woven pairs ++ rest) ro = woven pairs' ++ rest' /\
    concat (map fst pairs') ++ rest' = concat (map fst pairs) ++ rest /\
    map snd pairs' = map snd pairs ++ map (fun pt => bracket (snd pt)) toks.
Proof.
  unfold offsets_increasing.
  induction toks as [|[p t] toks IH]; intros pairs rest ro lo Hs Hlo Hw;
    cbn [merge_loop map].
  - exists pairs, rest. rewrite app_nil_r. auto.
  - apply StronglySorted_inv in Hs. destruct Hs as [Hs Hlt].
    inversion Hlo; subst. cbn [fst] in *.
    set (cur := woven pairs ++ rest).
    set (idx := if length cur <? p + ro then length cur else p + ro).
    assert (Hidx : length (woven pairs) <= idx).
    { unfold idx, cur. rewrite length_app.
      destruct (Nat.ltb_spec (length (woven pairs) + length rest) (p + ro)); lia. }
    assert (Hidx2 : idx <= p + ro).
    { unfold idx. destruct (Nat.ltb_spec (length cur) (p + ro)); lia. }
    unfold cur. rewrite (slice_insert_after _ _ _ _ Hidx).
    set (k := idx - length (woven pairs)).
    set (np := pairs ++ [(firstn k rest, bracket t)]).
    assert (Ew : woven pairs ++ firstn k rest ++ bracket t ++ skipn k rest =
                 woven np ++ skipn k rest).
    { unfold np, woven. rewrite map_app, concat_app. cbn [map concat fst snd].
      rewrite app_nil_r, <- !app_assoc. reflexivity. }
    rewrite Ew.
    destruct (IH np (skipn k rest) (ro + length (bracket t)) p Hs) as
      [pairs' [rest' [E1 [E2 E3]]]].
    + eapply Forall_impl; [|exact Hlt]. intros pt H; simpl in H; lia.
    + unfold np. rewrite length_woven, !map_app, !concat_app, !length_app.
      cbn [map concat fst snd]. rewrite !app_nil_r.
      rewrite length_woven in Hidx. unfold k. rewrite length_firstn.
      rewrite length_woven. lia.
    + exists pairs', rest'. split; [exact E1|]. split.
      * rewrite E2. unfold np. rewrite map_app, concat_app. cbn [map concat fst snd].
        rewrite app_nil_r, <- app_assoc, firstn_skipn. reflexivity.
      * rewrite E3. unfold np. rewrite map_app. cbn [map concat fst snd]. rewrite <- app_assoc.
        reflexivity.
Qed.

(** ** Chord positions of a chord line *)

Lemma StronglySorted_filter {A} (R : A -> A -> Prop) (f : A -> bool) l :
  StronglySorted R l -> StronglySorted R (filter f l).
Proof.
  induction l as [|a l IH]; intros H; simpl; [constructor|].
  apply StronglySorted_inv in H. destruct H as [H Ha].
  destruct (f a); [|apply IH; exact H].
  constructor; [apply IH; exact H|]. apply Forall_forall. intros x Hx.
  apply filter_In in Hx. rewrite Forall_forall in Ha. apply Ha. apply Hx.
Qed.

Lemma chord_positions_sorted cl : offsets_increasing (chord_positions_of cl).
Proof.
  apply StronglySorted_filter. eapply tok_layout_sorted.
  apply finditer_nonspace_layout.
Qed.

Lemma chord_positions_props cl :
  Forall (fun pt => is_chord_token (snd pt) = true
                    /\ Forall (fun c => isspace c = false) (snd pt))
         (chord_positions_of cl).
Proof.
  pose proof (tok_layout_text _ _ _ (finditer_nonspace_layout cl)) as H.
  unfold chord_positions_of. apply Forall_forall. intros pt Hin.
  apply filter_In in Hin. destruct Hin as [Hin Hc]. split; [exact Hc|].
  rewrite Forall_forall in H. apply (H pt Hin).
Qed.

Lemma filter_all_false {A} (f : A -> bool) l :
  (forall x, In x l -> f x = false) -> filter f l = [].
Proof.
  induction l as [|a l IH]; intros H; simpl; [reflexivity|].
  rewrite (H a (or_introl eq_refl)). apply IH. intros x Hx. apply H. right. exact Hx.
Qed.

Lemma sorted_split n (l : list (nat * str)) :
  offsets_increasing l ->
  l = filter (fun pt => fst pt <=? n) l ++ filter (fun pt => n <? fst pt) l.
Proof.
  unfold offsets_increasing.
  induction l as [|[p t] l IH]; intros H; simpl; [reflexivity|].
  apply StronglySorted_inv in H. destruct H as [H Ha].
  destruct (Nat.leb_spec p n).
  - replace (n <? p) with false by (symmetry; apply Nat.ltb_ge; lia).
    simpl. f_equal. apply IH. exact H.
  - replace (n <? p) with true by (symmetry; apply Nat.ltb_lt; lia).
    assert (E1 : filter (fun pt => fst pt <=? n) l = []).
    { apply filter_all_false. intros x Hx. rewrite Forall_forall in Ha.
      specialize (Ha x Hx). simpl in Ha. apply Nat.leb_gt. lia. }
    assert (E2 : filter (fun pt => n <? fst pt) l = l).
    { apply forallb_filter_id. apply forallb_forall. intros x Hx.
      rewrite Forall_forall in Ha. specialize (Ha x Hx). simpl in Ha.
      apply Nat.ltb_lt. lia. }
    rewrite E1, E2. reflexivity.
Qed.

Lemma lstrip_nonspace s :
  (s = [] \/ exists c t, s = c :: t /\ isspace c = false) -> lstrip s = s.
Proof.
  intros [->|[c [t [-> Hc]]]]; simpl; [reflexivity|]. rewrite Hc. reflexivity.
Qed.

Lemma strip_nonspace t : Forall (fun c => isspace c = false) t -> strip t = t.
Proof.
  intros H. unfold strip. rewrite (lstrip_nonspace t).
  - rewrite (lstrip_nonspace (rev t)); [apply rev_involutive|].
    destruct (rev t) as [|c u] eqn:E; [left; reflexivity|right].
    exists c, u. split; [reflexivity|].
    assert (Hr : Forall (fun c => isspace c = false) (rev t)) by (apply Forall_rev; exact H).
    rewrite E in Hr. inversion Hr; assumption.
  - destruct t as [|c u]; [left; reflexivity|right]. exists c, u. split; [reflexivity|].
    inversion H; assumption.
Qed.

Lemma lang_allows r w c : lang r w -> In c w -> re_allows r c = true.
Proof.
  revert w; induction r as [| p | r1 IH1 r2 IH2 | r1 IH1 r2 IH2 | r1 IH1 | p];
    intros w L Hin; simpl in *.
  - subst. destruct Hin.
  - destruct L as [d [-> Hd]]. destruct Hin as [->|[]]. exact Hd.
  - destruct L as [w1 [w2 [-> [L1 L2]]]]. apply in_app_iff in Hin.
    destruct Hin as [H|H]; [rewrite (IH1 _ L1 H) | rewrite (IH2 _ L2 H), orb_true_r];
      reflexivity.
  - destruct L as [L|L]; [rewrite (IH1 _ L Hin) | rewrite (IH2 _ L Hin), orb_true_r];
      reflexivity.
  - destruct L as [->|L]; [destruct Hin|]. exact (IH1 _ L Hin).
  - rewrite Forall_forall in L. apply L. exact Hin.
Qed.

Lemma chord_no_char c t :
  re_allows CHORD_TOKEN_RE c = false ->
  is_chord_token t = true -> Forall (fun c => isspace c = false) t ->
  count_char c t = 0.
Proof.
  intros Hc Ht Hs. apply is_chord_token_lang in Ht. rewrite strip_nonspace in Ht by exact Hs.
  unfold count_char. apply length_zero_iff_nil. apply filter_all_false.
  intros x Hx. destruct (Ascii.eqb_spec c x); [|reflexivity].
  subst. rewrite (lang_allows _ _ _ Ht Hx) in Hc. discriminate.
Qed.

Lemma count_bracket_chord c t :
  count_char c t = 0 -> count_char c (bracket t) = count_char c ["["%char; "]"%char].
Proof.
  unfold count_char, bracket. intros H. rewrite !filter_app, !length_app, H.
  simpl. destruct (Ascii.eqb c "["), (Ascii.eqb c "]"); simpl; lia.
Qed.

Lemma chord_not_bar_paren t :
  is_chord_token t = true ->
  is_bar_separator t = false /\ is_parenthetical_annotation t = false.
Proof.
  intros Hc. destruct (chord_head _ Hc) as [c [u [E1 H1]]]. split.
  - destruct (is_bar_separator t) eqn:Eb; [exfalso|reflexivity].
    destruct (bar_head _ Eb) as [c' [u' [E2 H2]]]. rewrite E1 in E2.
    injection E2; intros; subst. apply Ascii.eqb_eq in H2. subst. discriminate.
  - destruct (is_parenthetical_annotation t) eqn:Ep; [exfalso|reflexivity].
    destruct (paren_head _ Ep) as [c' [u' [E2 H2]]]. rewrite E1 in E2.
    injection E2; intros; subst. apply Ascii.eqb_eq in H2. subst. discriminate.
Qed.

Lemma list_sum_map_one {A} (f : A -> nat) l :
  Forall (fun x => f x = 1) l -> list_sum (map f l) = length l.
Proof.
  induction 1 as [|x l Hx _ IH]; [reflexivity|].
  cbn [map length]. rewrite list_sum_cons, Hx, IH. reflexivity.
Qed.

Lemma merge_count_bracket c cl ll :
  re_allows CHORD_TOKEN_RE c = false ->
  count_char c ["["%char; "]"%char] = 1 ->
  count_char c (merge_chords_and_lyrics cl ll) =
  count_char c ll + length (chord_positions_of cl).
Proof.
  intros Hc H1. unfold merge_chords_and_lyrics. rewrite merge_loop_count.
  f_equal. apply list_sum_map_one.
  eapply Forall_impl; [|apply chord_positions_props]. intros [p t] [Ht Hs].
  cbn [snd] in *. rewrite count_bracket_chord; [exact H1|].
  exact (chord_no_char c t Hc Ht Hs).
Qed.

(** C1. [merge_chords_and_lyrics] scans the chord line into its maximal
    non-whitespace tokens with their 0-based offsets, in increasing offset
    order; keeps the tokens that [is_chord_token] accepts; then inserts each
    kept token [t] at original offset [p] as ["[" ++ t ++ "]"] at index
    [p + running] clamped into [[0, current length]], the running offset
    growing by [length t + 2] after each insertion. *)
Theorem merge_chords_and_lyrics_spec (chord_line lyric_line : str) :
  tok_layout 0 chord_line (finditer_nonspace chord_line) /\
  offsets_increasing (finditer_nonspace chord_line) /\
  Forall (fun pt => firstn (length (snd pt)) (skipn (fst pt) chord_line) = snd pt)
         (finditer_nonspace chord_line) /\
  merge_chords_and_lyrics chord_line lyric_line =
  spec_merge (filter (fun pt => is_chord_token (snd pt)) (finditer_nonspace chord_line))
             lyric_line 0.
Proof.
  pose proof (finditer_nonspace_layout chord_line) as L.
  split; [exact L|]. split; [eapply tok_layout_sorted; exact L|]. split.
  - pose proof (tok_layout_text _ _ _ L) as T. eapply Forall_impl; [|exact T].
    intros pt [H _]. rewrite Nat.sub_0_r in H. exact H.
  - apply merge_loop_spec_merge.
Qed.

(** C4 (as corrected). The merged line is the lyric line lengthened by
    [length t + 2] for each chord token [t], so never shorter; it has exactly
    one more [[] and one more []] per chord token than the lyric line already
    had; chord tokens are never bar separators or annotations, which
    contribute nothing. *)
Theorem merge_length_and_brackets (chord_line lyric_line : str) :
  let chords := chord_positions_of chord_line in
  let merged := merge_chords_and_lyrics chord_line lyric_line in
  length merged = length lyric_line + list_sum (map (fun pt => length (snd pt) + 2) chords) /\
  length lyric_line <= length merged /\
  count_char "[" merged = count_char "[" lyric_line + length chords /\
  count_char "]" merged = count_char "]" lyric_line + length chords /\
  Forall (fun pt => is_bar_separator (snd pt) = false
                    /\ is_parenthetical_annotation (snd pt) = false) chords.
Proof.
  intros chords merged.
  assert (Hlen : length merged =
                 length lyric_line + list_sum (map (fun pt => length (snd pt) + 2) chords)).
  { unfold merged, merge_chords_and_lyrics. rewrite merge_loop_length.
    unfold inserted_len. f_equal. f_equal. apply map_ext. intros pt.
    apply length_bracket. }
  split; [exact Hlen|]. split; [rewrite Hlen; lia|].
  split; [apply merge_count_bracket; reflexivity|].
  split; [apply merge_count_bracket; reflexivity|].
  eapply Forall_impl; [|apply chord_positions_props]. intros pt [Ht _].
  apply chord_not_bar_paren. exact Ht.
Qed.

(** C4, counterexample: with the chord line ["A"] and the lyric line
    ["hi [x]"] (which the pass controller does merge), the merged line has
    two [[] for a single chord token. *)
Lemma merge_brackets_counterexample :
  process_lines [s2l "A"; s2l "hi [x]"] = Some [s2l "[A]hi [x]"] /\
  merge_chords_and_lyrics (s2l "A") (s2l "hi [x]") = s2l "[A]hi [x]" /\
  length (chord_positions_of (s2l "A")) = 1 /\
  count_char "[" (s2l "[A]hi [x]") = 2.
Proof. vm_compute. repeat split. Qed.

(** C5 (as corrected). A chord token whose column exceeds the lyric
    line's length is appended after every character of the lyric: the merged
    line is the merge of the other chord tokens followed by the bracketed
    forms of all such tokens, intact and in chord-line order. *)
Theorem merge_past_end (chord_line lyric_line : str) :
  let chords := chord_positions_of chord_line in
  merge_chords_and_lyrics chord_line lyric_line =
  merge_loop (filter (fun pt => fst pt <=? length lyric_line) chords) lyric_line 0 ++
  concat (map (fun pt => bracket (snd pt))
              (filter (fun pt => length lyric_line <? fst pt) chords)).
Proof.
  intros chords. unfold merge_chords_and_lyrics. fold chords.
  rewrite (sorted_split (length lyric_line) chords) at 1
    by apply chord_positions_sorted.
  rewrite merge_loop_app. apply (merge_loop_tail (length lyric_line)).
  - apply Forall_forall. intros x Hx. apply filter_In in Hx.
    apply Nat.ltb_lt. apply Hx.
  - rewrite merge_loop_length. lia.
Qed.

(** C5, counterexample: with the chord line ["  A B"] and the lyric line
    ["x"], both chords lie past the lyric's end; the merged line is
    ["x[A][B]"], so ["[A]"] is not at the very end. *)
Lemma merge_past_end_counterexample :
  chord_positions_of (s2l "  A B") = [(2, s2l "A"); (4, s2l "B")] /\
  merge_chords_and_lyrics (s2l "  A B") (s2l "x") = s2l "x[A][B]" /\
  skipn 4 (s2l "x[A][B]") <> bracket (s2l "A").
Proof. vm_compute. split; [reflexivity|]. split; [reflexivity|]. discriminate. Qed.

(** C9. A merge only inserts: the merged line is the lyric line cut into
    pieces with one bracketed chord after each piece but the last; deleting
    the inserted brackets gives back the lyric line, whose characters keep
    their order, and the brackets come in the chord line's left-to-right
    order. *)
Theorem merge_only_inserts (chord_line lyric_line : str) :
  exists pairs rest,
    merge_chords_and_lyrics chord_line lyric_line = woven pairs ++ rest /\
    concat (map fst pairs) ++ rest = lyric_line /\
    map snd pairs = map (fun pt => bracket (snd pt)) (chord_positions_of chord_line) /\
    offsets_increasing (chord_positions_of chord_line).
Proof.
  destruct (merge_loop_woven (chord_positions_of chord_line) [] lyric_line 0 0
              (chord_positions_sorted chord_line)) as [pairs [rest [E1 [E2 E3]]]].
  - apply Forall_forall. intros. lia.
  - simpl. lia.
  - exists pairs, rest. split; [exact E1|]. split; [exact E2|].
    split; [exact E3 | apply chord_positions_sorted].
Qed.

(** ** The [\S+|\s+] scanner and the standalone formatter *)

Lemma run_of_rev b r : run_of b r -> run_of b (rev r).
Proof.
  intros [H1 H2]. split.
  - intros E. apply H1. rewrite <- (rev_involutive r), E. reflexivity.
  - apply Forall_rev. exact H2.
Qed.

Lemma runs_aux_spec s : forall b acc,
  run_of b acc ->
  exists r rest, runs_aux acc s = r :: rest /\ run_of b r /\
    alternating_runs (negb b) rest /\ concat (r :: rest) = rev acc ++ s.
Proof.
  induction s as [|c s IH]; intros b acc Hacc.
  - exists (rev acc), []. destruct acc as [|a acc']; [destruct Hacc; congruence|].
    split; [reflexivity|]. split; [apply run_of_rev; exact Hacc|]. split; [exact I|].
    simpl. rewrite !app_nil_r. reflexivity.
  - destruct acc as [|a acc']; [destruct Hacc; congruence|].
    assert (Ha : isspace a = b) by (destruct Hacc as [_ F]; inversion F; assumption).
    cbn [runs_aux]. destruct (Bool.eqb_spec (isspace a) (isspace c)) as [E|E].
    + destruct (IH b (c :: a :: acc')) as [r [rest [E1 [R [A C]]]]].
      { split; [discriminate|]. constructor; [congruence|]. apply Hacc. }
      exists r, rest. split; [exact E1|]. split; [exact R|]. split; [exact A|].
      rewrite C. simpl. rewrite <- !app_assoc. reflexivity.
    + destruct (IH (negb b) [c]) as [r [rest [E1 [R [A C]]]]].
      { split; [discriminate|]. constructor; [|constructor].
        destruct b, (isspace c), (isspace a); simpl in *; congruence. }
      exists (rev (a :: acc')), (r :: rest). split; [rewrite E1; reflexivity|].
      split; [apply run_of_rev; exact Hacc|]. split.
      * split; [exact R|]. destruct b; exact A.
      * cbn [concat]. cbn [concat] in C. rewrite C. simpl. reflexivity.
Qed.

Lemma finditer_runs_spec line :
  concat (finditer_runs line) = line /\ exists b, alternating_runs b (finditer_runs line).
Proof.
  unfold finditer_runs. destruct line as [|c s].
  - split; [reflexivity|]. exists true. exact I.
  - cbn [runs_aux].
    destruct (runs_aux_spec s (isspace c) [c]) as [r [rest [E1 [R [A C]]]]].
    { split; [discriminate|]. constructor; constructor. }
    rewrite E1. split; [exact C|]. exists (isspace c). split; assumption.
Qed.

Lemma alternating_runs_each b rs :
  alternating_runs b rs -> Forall (fun r => exists b', run_of b' r) rs.
Proof.
  revert b. induction rs as [|r rs IH]; intros b H; [constructor|].
  destruct H as [R A]. constructor; [exists b; exact R | exact (IH _ A)].
Qed.

Lemma lstrip_allspace r : Forall (fun c => isspace c = true) r -> lstrip r = [].
Proof.
  induction 1 as [|c r Hc _ IH]; simpl; [reflexivity|]. rewrite Hc. exact IH.
Qed.

Lemma space_run_not_chord r : run_of true r -> is_chord_token r = false.
Proof.
  intros [Hne Hf]. destruct r as [|c u]; [contradiction|].
  unfold is_chord_token, strip. rewrite (lstrip_allspace (c :: u) Hf). reflexivity.
Qed.

Lemma format_token_run b r :
  run_of b r -> format_token r = if is_chord_token r then bracket r else r.
Proof.
  intros R. unfold format_token. destruct b.
  - rewrite space_run_not_chord by exact R.
    destruct R as [Hne Hf]. destruct r as [|c u]; [contradiction|].
    unfold str_isspace. replace (forallb isspace (c :: u)) with true; [reflexivity|].
    symmetry. apply forallb_forall. intros x Hx. rewrite Forall_forall in Hf.
    apply Hf. exact Hx.
  - destruct R as [Hne Hf]. destruct r as [|c u]; [contradiction|].
    inversion Hf; subst. unfold str_isspace. simpl.
    match goal with H : isspace c = false |- _ => rewrite H end. simpl.
    destruct (full_match CHORD_TOKEN_RE (strip (c :: u))); [reflexivity|].
    destruct (is_parenthetical_annotation (c :: u) || is_bar_separator (c :: u));
      reflexivity.
Qed.

Lemma format_runs line :
  format_chord_only_line line =
  concat (map (fun r => if is_chord_token r then bracket r else r) (finditer_runs line)).
Proof.
  unfold format_chord_only_line. f_equal.
  destruct (finditer_runs_spec line) as [_ [b A]].
  apply alternating_runs_each in A. apply map_ext_in. intros r Hr.
  rewrite Forall_forall in A. destruct (A r Hr) as [b' R].
  exact (format_token_run b' r R).
Qed.

(** C6. [format_chord_only_line] cuts the line into its maximal runs of
    whitespace and of non-whitespace, which concatenate back to the line, and
    re-emits them in order, replacing exactly the chord tokens [t] by
    ["[" ++ t ++ "]"]; a chord token is never a whitespace run, a bar
    separator or an annotation, so those are copied character for character.
    For example ["| B | A | E | E | x2"] becomes
    ["| [B] | [A] | [E] | [E] | x2"]. *)
Theorem format_chord_only_line_spec (line : str) :
  let rs := finditer_runs line in
  concat rs = line /\ (exists b, alternating_runs b rs) /\
  format_chord_only_line line =
    concat (map (fun r => if is_chord_token r then bracket r else r) rs) /\
  Forall (fun r => is_chord_token r = true ->
                   run_of false r /\ is_bar_separator r = false
                   /\ is_parenthetical_annotation r = false) rs /\
  format_chord_only_line (s2l "| B | A | E | E | x2") = s2l "| [B] | [A] | [E] | [E] | x2".
Proof.
  intros rs. destruct (finditer_runs_spec line) as [C [b A]].
  split; [exact C|]. split; [exists b; exact A|]. split; [apply format_runs|].
  split; [|vm_compute; reflexivity].
  apply alternating_runs_each in A. eapply Forall_impl; [|exact A].
  intros r [b' R] Hc. split.
  - destruct b'; [|exact R]. rewrite space_run_not_chord in Hc by exact R.
    discriminate.
  - apply chord_not_bar_paren. exact Hc.
Qed.

(** C10. [format_chord_only_line] is total on any line: a non-whitespace run
    that is neither a chord, a bar separator nor an annotation is copied
    unchanged by the fallback branch, and the output is the line with only
    its chord tokens bracketed; e.g. a lyric line keeps its words. *)
Theorem format_chord_only_line_fallback (line : str) :
  Forall (fun r => run_of false r -> is_chord_token r = false ->
                   is_bar_separator r = false -> is_parenthetical_annotation r = false ->
                   format_token r = r) (finditer_runs line) /\
  concat (finditer_runs line) = line /\
  format_chord_only_line line =
    concat (map (fun r => if is_chord_token r then bracket r else r) (finditer_runs line)) /\
  format_chord_only_line (s2l "Here are A lyrics") = s2l "Here are [A] lyrics".
Proof.
  split.
  - apply Forall_forall. intros r _ R Hc _ _.
    rewrite (format_token_run false r R), Hc. reflexivity.
  - split; [apply finditer_runs_spec|]. split; [apply format_runs|].
    vm_compute. reflexivity.
Qed.

(** ** The pass controller *)

Lemma header_re_spec s :
  ~ In newline s -> (full_match HEADER_RE s = true <-> section_header s).
Proof.
  intros Hnl. rewrite full_match_spec. unfold section_header, HEADER_RE. cbn [lang].
  split.
  - intros [w [rem [E [L Hrem]]]].
    destruct Hrem as [Hr|Hr]; subst rem;
      [|exfalso; apply Hnl; subst; apply in_app_iff; right; left; reflexivity].
    rewrite app_nil_r in E. subst w.
    destruct L as (w1 & w2 & E1 & S1 & w3 & w4 & E2 & (c & Ec & Hc) & w5 & w6 & E3
                   & N & w7 & w8 & E4 & (d & Ed & Hd) & S2).
    apply Ascii.eqb_eq in Hc, Hd. subst.
    exists w1, w5, w8. split; [reflexivity|]. split; assumption.
  - intros [pre [inner [post [E [S1 S2]]]]].
    exists s, []. rewrite app_nil_r. split; [reflexivity|]. split; [|left; reflexivity].
    exists pre, (["["%char] ++ inner ++ ["]"%char] ++ post). split; [exact E|].
    split; [exact S1|].
    exists ["["%char], (inner ++ ["]"%char] ++ post). split; [reflexivity|].
    split; [exists "["%char; split; [reflexivity | apply Ascii.eqb_refl]|].
    exists inner, (["]"%char] ++ post). split; [reflexivity|]. split.
    + apply Forall_forall. intros x Hx. unfold not_newline.
      destruct (Ascii.eqb_spec x newline); [|reflexivity]. subst x. exfalso. apply Hnl.
      rewrite E. apply in_app_iff. right. cbn [app]. right. apply in_app_iff. left. exact Hx.
    + exists ["]"%char], post. split; [reflexivity|].
      split; [exists "]"%char; split; [reflexivity | apply Ascii.eqb_refl] | exact S2].
Qed.

Lemma no_newlines_nth lines i l :
  no_newlines lines = true -> nth_error lines i = Some l -> ~ In newline l.
Proof.
  unfold no_newlines. intros H Hi Hin. apply nth_error_In in Hi.
  rewrite forallb_forall in H. specialize (H l Hi).
  apply negb_true_iff in H. rewrite <- not_true_iff_false in H. apply H.
  apply existsb_exists. exists newline. split; [exact Hin | apply Ascii.eqb_refl].
Qed.

Lemma strip_nonempty_spec s : strip_nonempty s = true <-> strip s <> [].
Proof.
  unfold strip_nonempty. destruct (strip s); split; congruence.
Qed.

Lemma loop_body_progress lines i :
  i < length lines -> exists o i', loop_body lines i = Some (o, i') /\ i < i'.
Proof.
  intros Hi. unfold loop_body.
  destruct (nth_error lines i) as [cur|] eqn:E;
    [|apply nth_error_None in E; lia].
  destruct (is_chord_only_line cur); [|eexists _, _; split; [reflexivity | lia]].
  destruct (Nat.ltb_spec (i + 1) (length lines)) as [H|H];
    [|eexists _, _; split; [reflexivity | lia]].
  destruct (nth_error lines (i + 1)) as [next|] eqn:E2;
    [|apply nth_error_None in E2; lia].
  destruct (strip_nonempty next && negb (full_match HEADER_RE next));
    eexists _, _; split; try reflexivity; lia.
Qed.

Lemma run_loop_exec lines fuel : forall i out,
  length lines - i < fuel ->
  exists res, run_loop fuel lines i out = Some res /\ exec lines i out res.
Proof.
  induction fuel as [|fuel IH]; intros i out Hf; [lia|]. cbn [run_loop].
  destruct (Nat.ltb_spec i (length lines)) as [H|H].
  - destruct (loop_body_progress lines i H) as [o [i' [E Hi']]]. rewrite E.
    destruct (IH i' (out ++ [o])) as [res [E1 X]]; [lia|].
    exists res. split; [exact E1|]. eapply exec_step; eassumption.
  - exists out. split; [reflexivity|]. apply exec_done. exact H.
Qed.

Lemma exec_det lines i out r1 :
  exec lines i out r1 -> forall r2, exec lines i out r2 -> r1 = r2.
Proof.
  induction 1 as [i out H | i out o i' res H E X IH]; intros r2 H2;
    inversion H2; subst.
  - reflexivity.
  - lia.
  - lia.
  - match goal with H' : loop_body lines i = Some _ |- _ =>
      rewrite E in H'; injection H'; intros; subst end.
    apply IH. assumption.
Qed.

(** C2. One step of the pass controller on a current line [cur_line]
    (lines as [splitlines] gives them, without newlines): a line that is not
    chord-only is emitted unchanged and the index advances by 1; a chord-only
    line is merged with the next line, the index advancing by 2, exactly when
    a next line exists, is non-blank after stripping and is not a section
    header; otherwise it is formatted standalone and the index advances by
    1. *)
Theorem loop_body_spec (lines : list str) (i : nat) (cur_line : str)
  (Hnl : no_newlines lines = true) (Hcur : nth_error lines i = Some cur_line) :
  (is_chord_only_line cur_line = false ->
     loop_body lines i = Some (cur_line, i + 1)) /\
  (is_chord_only_line cur_line = true ->
     forall next_line, nth_error lines (i + 1) = Some next_line ->
     strip next_line <> [] -> ~ section_header next_line ->
     loop_body lines i = Some (merge_chords_and_lyrics cur_line next_line, i + 2)) /\
  (is_chord_only_line cur_line = true ->
     ~ (exists next_line, nth_error lines (i + 1) = Some next_line /\
          strip next_line <> [] /\ ~ section_header next_line) ->
     loop_body lines i = Some (format_chord_only_line cur_line, i + 1)).
Proof.
  unfold loop_body. rewrite Hcur. split; [|split].
  - intros H. rewrite H. reflexivity.
  - intros H next_line Hn Hs Hh. rewrite H.
    assert (Hlt : i + 1 < length lines)
      by (apply nth_error_Some; rewrite Hn; discriminate).
    apply Nat.ltb_lt in Hlt. rewrite Hlt, Hn.
    apply strip_nonempty_spec in Hs. rewrite Hs.
    rewrite <- (header_re_spec _ (no_newlines_nth _ _ _ Hnl Hn)) in Hh.
    apply not_true_iff_false in Hh. rewrite Hh. reflexivity.
  - intros H Hno. rewrite H.
    destruct (Nat.ltb_spec (i + 1) (length lines)) as [Hlt|]; [|reflexivity].
    destruct (nth_error lines (i + 1)) as [next|] eqn:Hn;
      [|apply nth_error_None in Hn; lia].
    destruct (strip_nonempty next) eqn:Hs; [|reflexivity].
    destruct (full_match HEADER_RE next) eqn:Hh; [reflexivity|].
    exfalso. apply Hno. exists next. split; [reflexivity|]. split.
    + apply strip_nonempty_spec. exact Hs.
    + rewrite <- (header_re_spec _ (no_newlines_nth _ _ _ Hnl Hn)). congruence.
Qed.

(** Witness for C2: the chord line ["Am"] followed by the lyric ["la"]. *)
Lemma loop_body_spec_witness :
  no_newlines [s2l "Am"; s2l "la"] = true /\
  nth_error [s2l "Am"; s2l "la"] 0 = Some (s2l "Am") /\
  loop_body [s2l "Am"; s2l "la"] 0 =
    Some (merge_chords_and_lyrics (s2l "Am") (s2l "la"), 0 + 2).
Proof.
  split; [reflexivity|]. split; [reflexivity|].
  assert (Hs : strip (s2l "la") <> []) by (vm_compute; discriminate).
  assert (Hh : ~ section_header (s2l "la")).
  { rewrite <- (header_re_spec (s2l "la")); [vm_compute; discriminate|].
    vm_compute. intros [H|[H|[]]]; discriminate H. }
  exact (proj1 (proj2 (loop_body_spec [s2l "Am"; s2l "la"] 0 (s2l "Am")
    eq_refl eq_refl)) eq_refl (s2l "la") eq_refl Hs Hh).
Defined.

(** C8. [process_lines] is total and deterministic: on every list of lines
    the loop ends without error, with the output of the big-step semantics
    of the loop, and that output is unique. *)
Theorem process_lines_total (lines : list str) :
  exists out, process_lines lines = Some out /\ exec lines 0 [] out /\
              (forall out', exec lines 0 [] out' -> out' = out).
Proof.
  destruct (run_loop_exec lines (S (length lines)) 0 []) as [out [E X]]; [lia|].
  exists out. split; [exact E|]. split; [exact X|].
  intros out' X'. exact (exec_det _ _ _ _ X' _ X).
Qed.

(** * Further properties of the module *)

(** ** The pass as a recursion *)

Lemma skipn_nth_error {A} (l : list A) i x :
  nth_error l i = Some x -> skipn i l = x :: skipn (S i) l.
Proof.
  revert i. induction l as [|a l IH]; intros [|i] H; simpl in *; try discriminate.
  - injection H; intros; subst. reflexivity.
  - apply IH. exact H.
Qed.

Lemma run_loop_rec lines fuel : forall i out,
  length lines - i < fuel ->
  run_loop fuel lines i out = Some (out ++ process_rec (skipn i lines)).
Proof.
  induction fuel as [|fuel IH]; intros i out Hf; [lia|]. cbn [run_loop].
  destruct (Nat.ltb_spec i (length lines)) as [H|H].
  - destruct (nth_error lines i) as [cur|] eqn:Ecur;
      [|apply nth_error_None in Ecur; lia].
    unfold loop_body. rewrite Ecur.
    rewrite (skipn_nth_error _ _ _ Ecur). cbn [process_rec].
    destruct (is_chord_only_line cur).
    + destruct (Nat.ltb_spec (i + 1) (length lines)) as [H1|H1].
      * destruct (nth_error lines (i + 1)) as [nx|] eqn:Enx;
          [|apply nth_error_None in Enx; lia].
        replace (i + 1) with (S i) in Enx by lia.
        rewrite (skipn_nth_error _ _ _ Enx).
        destruct (strip_nonempty nx && negb (full_match HEADER_RE nx)).
        -- rewrite IH by lia. rewrite <- app_assoc.
           replace (i + 2) with (S (S i)) by lia. reflexivity.
        -- rewrite IH by lia. rewrite <- app_assoc.
           replace (i + 1) with (S i) by lia.
           rewrite (skipn_nth_error _ _ _ Enx). reflexivity.
      * rewrite (skipn_all2 (n := S i)) by lia. rewrite IH by lia.
        replace (i + 1) with (S i) by lia. rewrite (skipn_all2 (n := S i)) by lia.
        rewrite <- app_assoc. reflexivity.
    + rewrite IH by lia. rewrite <- app_assoc.
      replace (i + 1) with (S i) by lia. reflexivity.
  - rewrite skipn_all2 by lia. rewrite app_nil_r. reflexivity.
Qed.

Lemma process_lines_rec lines : process_lines lines = Some (process_rec lines).
Proof.
  unfold process_lines. rewrite run_loop_rec by lia. reflexivity.
Qed.

(** Induction following [process_rec], which consumes one or two lines. *)
Lemma list_ind2 {A} (P : list A -> Prop) :
  P [] -> (forall x, P [x]) ->
  (forall x y l, P l -> P (y :: l) -> P (x :: y :: l)) -> forall l, P l.
Proof.
  intros H0 H1 H2.
  assert (H : forall l, P l /\ forall x, P (x :: l)).
  { induction l as [|y l [IH1 IH2]]; split; auto. }
  intros l. apply H.
Qed.

(** ** Blank lines *)

Lemma lstrip_nil s : lstrip s = [] <-> Forall (fun c => isspace c = true) s.
Proof.
  induction s as [|c s IH]; simpl; [split; auto|].
  destruct (isspace c) eqn:E.
  - rewrite IH. split; [intros H; constructor; auto | intros H; inversion H; auto].
  - split; [discriminate | intros H; inversion H; congruence].
Qed.

Lemma lstrip_app_nonspace s c :
  isspace c = false -> lstrip (s ++ [c]) = lstrip s ++ [c].
Proof.
  intros Hc. induction s as [|d s IH]; simpl.
  - rewrite Hc. reflexivity.
  - destruct (isspace d); [exact IH | reflexivity].
Qed.

Lemma strip_cons_nonspace c t :
  isspace c = false -> exists u, strip (c :: t) = c :: u.
Proof.
  intros Hc. unfold strip. cbn [lstrip]. rewrite Hc. cbn [rev].
  rewrite lstrip_app_nonspace by exact Hc. rewrite rev_app_distr.
  eexists. reflexivity.
Qed.

Lemma strip_nil s : strip s = [] <-> Forall (fun c => isspace c = true) s.
Proof.
  unfold strip. rewrite <- lstrip_nil. split.
  - intros H. destruct (lstrip s) as [|c t] eqn:E; [reflexivity|].
    exfalso. apply lstrip_head in E. cbn [rev] in H.
    rewrite lstrip_app_nonspace in H by exact E.
    destruct (rev (lstrip (rev t) ++ [c])) eqn:E2.
    + apply (f_equal (@length ascii)) in E2. rewrite length_rev, length_app in E2.
      simpl in E2. lia.
    + discriminate.
  - intros H. rewrite H. reflexivity.
Qed.

Lemma strip_nonempty_in c s :
  In c s -> isspace c = false -> strip_nonempty s = true.
Proof.
  intros Hin Hc. unfold strip_nonempty. destruct (strip s) eqn:E; [|reflexivity].
  apply strip_nil in E. rewrite Forall_forall in E. rewrite (E c Hin) in Hc. discriminate.
Qed.

Lemma strip_nonempty_false s :
  strip_nonempty s = false -> Forall (fun c => isspace c = true) s.
Proof.
  unfold strip_nonempty. destruct (strip s) eqn:E; [|discriminate].
  intros _. apply strip_nil. exact E.
Qed.

Lemma split_aux_spaces s :
  Forall (fun c => isspace c = true) s -> split_aux [] s = [].
Proof.
  induction 1 as [|c s Hc _ IH]; simpl; [reflexivity|]. rewrite Hc. exact IH.
Qed.

Lemma chord_only_nonblank l :
  is_chord_only_line l = true -> strip_nonempty l = true.
Proof.
  intros H. destruct (strip_nonempty l) eqn:E; [reflexivity|].
  apply strip_nonempty_false, split_aux_spaces in E.
  unfold is_chord_only_line, py_split in H. rewrite E in H. discriminate.
Qed.

Lemma in_format_line c l : In c l -> In c (format_chord_only_line l).
Proof.
  intros Hin. rewrite format_runs.
  destruct (finditer_runs_spec l) as [Hc _].
  rewrite <- Hc in Hin. apply in_concat in Hin. destruct Hin as [r [Hr Hcr]].
  apply in_concat. eexists. split; [apply in_map; exact Hr|].
  destruct (is_chord_token r); [|exact Hcr].
  unfold bracket. apply in_app_iff. right. apply in_app_iff. left. exact Hcr.
Qed.

Lemma in_slice_insert c k b l : In c l -> In c (slice_insert k b l).
Proof.
  intros H. unfold slice_insert. rewrite <- (firstn_skipn k l) in H.
  apply in_app_iff in H. apply in_app_iff.
  destruct H as [H|H]; [left; exact H | right; apply in_app_iff; right; exact H].
Qed.

Lemma in_merge_loop c toks : forall cur ro, In c cur -> In c (merge_loop toks cur ro).
Proof.
  induction toks as [|[p t] rest IH]; intros cur ro H; cbn [merge_loop]; [exact H|].
  apply IH. apply in_slice_insert. exact H.
Qed.

Lemma strip_nonempty_exists s :
  strip_nonempty s = true -> exists c, In c s /\ isspace c = false.
Proof.
  intros H. destruct (existsb (fun c => negb (isspace c)) s) eqn:E.
  - apply existsb_exists in E. destruct E as [c [Hc Hs]].
    exists c. split; [exact Hc|]. destruct (isspace c); [discriminate | reflexivity].
  - exfalso. assert (F : Forall (fun c => isspace c = true) s).
    { apply Forall_forall. intros c Hc.
      destruct (isspace c) eqn:Ec; [reflexivity|].
      rewrite <- E. apply (proj2 (existsb_exists _ _)). exists c. rewrite Ec. auto. }
    apply strip_nil in F. unfold strip_nonempty in H. rewrite F in H. discriminate.
Qed.

Lemma format_nonblank l :
  is_chord_only_line l = true -> strip_nonempty (format_chord_only_line l) = true.
Proof.
  intros H. apply chord_only_nonblank, strip_nonempty_exists in H.
  destruct H as [c [Hc Hs]]. apply (strip_nonempty_in c); [|exact Hs].
  apply in_format_line. exact Hc.
Qed.

Lemma merge_nonblank cl ll :
  strip_nonempty ll = true -> strip_nonempty (merge_chords_and_lyrics cl ll) = true.
Proof.
  intros H. apply strip_nonempty_exists in H. destruct H as [c [Hc Hs]].
  apply (strip_nonempty_in c); [|exact Hs]. apply in_merge_loop. exact Hc.
Qed.

Lemma process_rec_cons cur_line rest :
  process_rec (cur_line :: rest) =
  if is_chord_only_line cur_line then
    match rest with
    | next_line :: rest' =>
        if strip_nonempty next_line && negb (full_match HEADER_RE next_line)
        then merge_chords_and_lyrics cur_line next_line :: process_rec rest'
        else format_chord_only_line cur_line :: process_rec rest
    | [] => [format_chord_only_line cur_line]
    end
  else cur_line :: process_rec rest.
Proof. reflexivity. Qed.

Lemma process_rec_blank lines :
  filter (fun l => negb (strip_nonempty l)) (process_rec lines) =
  filter (fun l => negb (strip_nonempty l)) lines.
Proof.
  induction lines as [|x|x y l IH1 IH2] using (list_ind2 (A := str)).
  - reflexivity.
  - rewrite process_rec_cons. destruct (is_chord_only_line x) eqn:Ex; [|reflexivity].
    cbn [filter]. rewrite (chord_only_nonblank x Ex), (format_nonblank x Ex). reflexivity.
  - rewrite process_rec_cons. destruct (is_chord_only_line x) eqn:Ex.
    + destruct (strip_nonempty y && negb (full_match HEADER_RE y)) eqn:Ey.
      * apply andb_true_iff in Ey. destruct Ey as [Ey _].
        cbn [filter]. rewrite (merge_nonblank x y Ey), (chord_only_nonblank x Ex), Ey.
        exact IH1.
      * cbn [filter] in *. rewrite (format_nonblank x Ex), (chord_only_nonblank x Ex).
        exact IH2.
    + cbn [filter]. rewrite IH2. reflexivity.
Qed.

(** ** Characters of the output *)

Lemma finditer_aux_chars c s : forall pos start acc pt,
  In pt (finditer_aux pos start acc s) -> In c (snd pt) -> In c acc \/ In c s.
Proof.
  induction s as [|d s IH]; intros pos start acc pt Hpt Hc; cbn [finditer_aux] in Hpt.
  - destruct acc as [|a acc']; [destruct Hpt|].
    destruct Hpt as [<-|[]]. left. apply in_rev. exact Hc.
  - destruct (isspace d); destruct acc as [|a acc'].
    + destruct (IH _ _ _ _ Hpt Hc) as [[]|H]. right. right. exact H.
    + destruct Hpt as [<-|Hpt].
      * left. apply in_rev. exact Hc.
      * destruct (IH _ _ _ _ Hpt Hc) as [[]|H]. right. right. exact H.
    + destruct (IH _ _ _ _ Hpt Hc) as [[<-|[]]|H]; right; [left; reflexivity | right; exact H].
    + destruct (IH _ _ _ _ Hpt Hc) as [[<-|H]|H].
      * right. left. reflexivity.
      * left. exact H.
      * right. right. exact H.
Qed.

Lemma in_bracket c t : In c (bracket t) -> c = "["%char \/ In c t \/ c = "]"%char.
Proof.
  unfold bracket. intros H. apply in_app_iff in H. destruct H as [[<-|[]]|H].
  - left. reflexivity.
  - apply in_app_iff in H. destruct H as [H|[<-|[]]]; [right; left; exact H | right; right; reflexivity].
Qed.

Lemma merge_loop_chars c toks : forall cur ro,
  In c (merge_loop toks cur ro) ->
  In c cur \/ (exists pt, In pt toks /\ In c (snd pt)) \/ c = "["%char \/ c = "]"%char.
Proof.
  induction toks as [|[p t] rest IH]; intros cur ro H; cbn [merge_loop] in H; [left; exact H|].
  destruct (IH _ _ H) as [H1|[[pt [Hpt Hc]]|H1]].
  - unfold slice_insert in H1. apply in_app_iff in H1. destruct H1 as [H1|H1].
    + left. rewrite <- (firstn_skipn (if length cur <? p + ro then length cur else p + ro) cur).
      apply in_app_iff. left. exact H1.
    + apply in_app_iff in H1. destruct H1 as [H1|H1].
      * apply in_bracket in H1. destruct H1 as [H1|[H1|H1]].
        -- right. right. left. exact H1.
        -- right. left. exists (p, t). split; [left; reflexivity | exact H1].
        -- right. right. right. exact H1.
      * left. rewrite <- (firstn_skipn (if length cur <? p + ro then length cur else p + ro) cur).
        apply in_app_iff. right. exact H1.
  - right. left. exists pt. split; [right; exact Hpt | exact Hc].
  - right. right. exact H1.
Qed.

Lemma merge_chars c cl ll :
  In c (merge_chords_and_lyrics cl ll) ->
  In c cl \/ In c ll \/ c = "["%char \/ c = "]"%char.
Proof.
  intros H. apply merge_loop_chars in H. destruct H as [H|[[pt [Hpt Hc]]|H]].
  - right. left. exact H.
  - left. unfold chord_positions_of in Hpt. apply filter_In in Hpt.
    destruct (finditer_aux_chars c cl 0 0 [] pt (proj1 Hpt) Hc) as [[]|H]. exact H.
  - right. right. exact H.
Qed.

Lemma format_chars c l :
  In c (format_chord_only_line l) -> In c l \/ c = "["%char \/ c = "]"%char.
Proof.
  rewrite format_runs. intros H. apply in_concat in H. destruct H as [x [Hx Hc]].
  apply in_map_iff in Hx. destruct Hx as [r [<- Hr]].
  assert (Hl : In c r -> In c l).
  { intros Hcr. destruct (finditer_runs_spec l) as [E _]. rewrite <- E.
    apply in_concat. exists r. auto. }
  destruct (is_chord_token r).
  - apply in_bracket in Hc. destruct Hc as [Hc|[Hc|Hc]]; auto.
  - left. auto.
Qed.

Lemma process_rec_chars lines : forall o c,
  In o (process_rec lines) -> In c o ->
  (exists l, In l lines /\ In c l) \/ c = "["%char \/ c = "]"%char.
Proof.
  induction lines as [|x|x y l IH1 IH2] using (list_ind2 (A := str)); intros o c Ho Hc.
  - destruct Ho.
  - rewrite process_rec_cons in Ho. destruct (is_chord_only_line x).
    + destruct Ho as [<-|[]]. apply format_chars in Hc.
      destruct Hc as [Hc|Hc]; [left; exists x; split; [left; reflexivity | exact Hc] | right; exact Hc].
    + destruct Ho as [<-|[]]. left. exists x. split; [left; reflexivity | exact Hc].
  - rewrite process_rec_cons in Ho. destruct (is_chord_only_line x).
    + destruct (strip_nonempty y && negb (full_match HEADER_RE y)).
      * destruct Ho as [<-|Ho].
        -- apply merge_chars in Hc. destruct Hc as [Hc|[Hc|Hc]].
           ++ left. exists x. split; [left; reflexivity | exact Hc].
           ++ left. exists y. split; [right; left; reflexivity | exact Hc].
           ++ right. exact Hc.
        -- destruct (IH1 o c Ho Hc) as [[l' [Hl Hc']]|H]; [|right; exact H].
           left. exists l'. split; [right; right; exact Hl | exact Hc'].
      * destruct Ho as [<-|Ho].
        -- apply format_chars in Hc. destruct Hc as [Hc|Hc];
             [left; exists x; split; [left; reflexivity | exact Hc] | right; exact Hc].
        -- destruct (IH2 o c Ho Hc) as [[l' [Hl Hc']]|H]; [|right; exact H].
           left. exists l'. split; [right; exact Hl | exact Hc'].
    + destruct Ho as [<-|Ho].
      * left. exists x. split; [left; reflexivity | exact Hc].
      * destruct (IH2 o c Ho Hc) as [[l' [Hl Hc']]|H]; [|right; exact H].
        left. exists l'. split; [right; exact Hl | exact Hc'].
Qed.

Lemma process_rec_length lines :
  length (process_rec lines) <= length lines /\ length lines <= 2 * length (process_rec lines).
Proof.
  induction lines as [|x|x y l IH1 IH2] using (list_ind2 (A := str)).
  - simpl. lia.
  - rewrite process_rec_cons. destruct (is_chord_only_line x); simpl; lia.
  - rewrite process_rec_cons. destruct (is_chord_only_line x).
    + destruct (strip_nonempty y && negb (full_match HEADER_RE y)).
      * cbn [length] in *. lia.
      * cbn [length] in *. lia.
    + cbn [length] in *. lia.
Qed.

Lemma last_cons_cons {A} (x y : A) l d : last (x :: y :: l) d = last (y :: l) d.
Proof. reflexivity. Qed.

Lemma process_rec_app (l1 l2 : list str) :
  is_chord_only_line (last l1 []) = false ->
  process_rec (l1 ++ l2) = process_rec l1 ++ process_rec l2.
Proof.
  induction l1 as [|x|x y l IH1 IH2] using (list_ind2 (A := str)); intros H.
  - reflexivity.
  - cbn [last] in H. cbn [app].
    rewrite (process_rec_cons x l2), (process_rec_cons x []), H. reflexivity.
  - rewrite last_cons_cons in H.
    assert (Hl : is_chord_only_line (last l []) = false).
    { destruct l as [|z l]; [reflexivity|]. exact H. }
    cbn [app]. rewrite (process_rec_cons x (y :: l ++ l2)), (process_rec_cons x (y :: l)).
    change (y :: l ++ l2) with ((y :: l) ++ l2).
    destruct (is_chord_only_line x).
    + destruct (strip_nonempty y && negb (full_match HEADER_RE y)).
      * rewrite (IH1 Hl). reflexivity.
      * rewrite (IH2 H). reflexivity.
    + rewrite (IH2 H). reflexivity.
Qed.

(** X1. On lines none of which is chord-only, [process_lines] is the
    identity: every line is emitted unchanged, in order. *)
Theorem process_lines_identity (lines : list str)
  (H : Forall (fun l => is_chord_only_line l = false) lines) :
  process_lines lines = Some lines.
Proof.
  rewrite process_lines_rec. f_equal.
  induction H as [|x l Hx _ IH]; [reflexivity|].
  rewrite process_rec_cons, Hx, IH. reflexivity.
Qed.

Lemma process_lines_identity_witness :
  Forall (fun l => is_chord_only_line l = false) [s2l "[Verse]"; s2l "Hello there"] /\
  process_lines [s2l "[Verse]"; s2l "Hello there"] = Some [s2l "[Verse]"; s2l "Hello there"].
Proof.
  assert (H : Forall (fun l => is_chord_only_line l = false) [s2l "[Verse]"; s2l "Hello there"]).
  { constructor; [vm_compute; reflexivity|]. constructor; [vm_compute; reflexivity|].
    constructor. }
  split; [exact H | exact (process_lines_identity _ H)].
Defined.

(** X2. [process_lines] never emits more lines than it reads, and since a
    merge consumes at most two input lines per output line, never fewer than
    half of them. *)
Theorem process_lines_length (lines : list str) :
  exists out, process_lines lines = Some out /\
    length out <= length lines /\ length lines <= 2 * length out.
Proof.
  exists (process_rec lines). split; [apply process_lines_rec|]. apply process_rec_length.
Qed.

(** X3. Blank lines (empty or whitespace only) are kept exactly: the blank
    lines of the output are the blank lines of the input, in the same order;
    no blank line is consumed by a merge and no emitted chord or merged line
    is blank. *)
Theorem process_lines_blank_lines (lines : list str) :
  exists out, process_lines lines = Some out /\
    filter (fun l => negb (strip_nonempty l)) out =
    filter (fun l => negb (strip_nonempty l)) lines.
Proof.
  exists (process_rec lines). split; [apply process_lines_rec|]. apply process_rec_blank.
Qed.

(** X4. Processing distributes over concatenation when the first part does
    not end in a chord-only line: converting [l1 ++ l2] gives the conversion
    of [l1] followed by that of [l2]. (When [l1] is empty its last element
    defaults to the empty line, which is not chord-only.) *)
Theorem process_lines_app (l1 l2 : list str)
  (H : is_chord_only_line (last l1 []) = false) :
  exists o1 o2, process_lines l1 = Some o1 /\ process_lines l2 = Some o2 /\
    process_lines (l1 ++ l2) = Some (o1 ++ o2).
Proof.
  exists (process_rec l1), (process_rec l2).
  rewrite !process_lines_rec, process_rec_app by exact H. auto.
Qed.

Lemma process_lines_app_witness :
  is_chord_only_line (last [s2l "Am"; s2l "la la"] []) = false /\
  exists o1 o2, process_lines [s2l "Am"; s2l "la la"] = Some o1 /\
    process_lines [s2l "G"] = Some o2 /\
    process_lines ([s2l "Am"; s2l "la la"] ++ [s2l "G"]) = Some (o1 ++ o2).
Proof.
  assert (H : is_chord_only_line (last [s2l "Am"; s2l "la la"] []) = false)
    by (vm_compute; reflexivity).
  split; [exact H | exact (process_lines_app _ [s2l "G"] H)].
Defined.

(** X5. [process_lines] introduces no new characters: every character of
    every output line occurs in some input line, or is one of the brackets
    ["["] and ["]"] it adds around chords. *)
Theorem process_lines_chars (lines : list str) :
  exists out, process_lines lines = Some out /\
    forall o c, In o out -> In c o ->
      (exists l, In l lines /\ In c l) \/ c = "["%char \/ c = "]"%char.
Proof.
  exists (process_rec lines). split; [apply process_lines_rec|]. apply process_rec_chars.
Qed.

(** ** Reading lines back *)

Lemma splitlines_aux_cons acc c t :
  splitlines_aux acc (c :: t) =
  if is_linebreak c then
    if Ascii.eqb c carriage_return then
      match t with
      | d :: t' => if Ascii.eqb d newline then rev acc :: splitlines_aux [] t'
                   else rev acc :: splitlines_aux [] t
      | [] => rev acc :: splitlines_aux [] t
      end
    else rev acc :: splitlines_aux [] t
  else splitlines_aux (c :: acc) t.
Proof. reflexivity. Qed.

Lemma splitlines_aux_nobreak s : forall acc,
  Forall (fun c => is_linebreak c = false) acc ->
  Forall (fun l => Forall (fun c => is_linebreak c = false) l) (splitlines_aux acc s).
Proof.
  assert (H0 : forall acc, Forall (fun c => is_linebreak c = false) acc ->
     Forall (fun l => Forall (fun c => is_linebreak c = false) l) (splitlines_aux acc [])).
  { intros [|a acc] H; cbn [splitlines_aux]; [constructor|].
    constructor; [apply Forall_rev; exact H | constructor]. }
  induction s as [|x|x y l IH1 IH2] using (list_ind2 (A := ascii)); intros acc H.
  - apply H0. exact H.
  - rewrite splitlines_aux_cons. destruct (is_linebreak x) eqn:E.
    + assert (R : Forall (fun l => Forall (fun c => is_linebreak c = false) l)
                    (rev acc :: splitlines_aux [] [])).
      { constructor; [apply Forall_rev; exact H | apply H0; constructor]. }
      destruct (Ascii.eqb x carriage_return); exact R.
    + apply H0. constructor; assumption.
  - rewrite splitlines_aux_cons. destruct (is_linebreak x) eqn:E.
    + destruct (Ascii.eqb x carriage_return); [destruct (Ascii.eqb y newline)|];
        (constructor; [apply Forall_rev; exact H|]); auto.
    + apply IH2. constructor; assumption.
Qed.

Lemma splitlines_line (l s acc : str) :
  Forall (fun c => is_linebreak c = false) l ->
  splitlines_aux acc (l ++ newline :: s) = (rev acc ++ l) :: splitlines_aux [] s.
Proof.
  intros H. revert acc. induction H as [|c l Hc _ IH]; intros acc.
  - rewrite app_nil_r. reflexivity.
  - cbn [app]. rewrite splitlines_aux_cons, Hc, IH. cbn [rev].
    rewrite <- app_assoc. reflexivity.
Qed.

Lemma splitlines_join rest : forall l,
  Forall (fun x => Forall (fun c => is_linebreak c = false) x) (l :: rest) ->
  splitlines_aux [] (l ++ concat (map (fun x => [newline] ++ x) rest) ++ [newline]) =
  l :: rest.
Proof.
  induction rest as [|r rest IH]; intros l H; apply Forall_cons_iff in H; destruct H as [Hl Hr].
  - cbn [map concat app]. rewrite splitlines_line by exact Hl. reflexivity.
  - replace (l ++ concat (map (fun x => [newline] ++ x) (r :: rest)) ++ [newline])
      with (l ++ newline :: (r ++ concat (map (fun x => [newline] ++ x) rest) ++ [newline]))
      by (cbn [map concat]; rewrite <- !app_assoc; reflexivity).
    rewrite splitlines_line by exact Hl. rewrite IH by exact Hr. reflexivity.
Qed.

Lemma splitlines_aux_nonempty s : forall acc,
  acc <> [] \/ s <> [] -> splitlines_aux acc s <> [].
Proof.
  induction s as [|c t IH]; intros acc H.
  - destruct acc; [destruct H; congruence | discriminate].
  - rewrite splitlines_aux_cons. destruct (is_linebreak c).
    + destruct (Ascii.eqb c carriage_return); [destruct t as [|d t']; [|destruct (Ascii.eqb d newline)]|];
        discriminate.
    + apply IH. left. discriminate.
Qed.

(** X6. [str.splitlines()] cuts the text at every line boundary:
    no line it returns contains a line-break character ([\n], [\r], [\v],
    [\f], [\x1c]-[\x1e]). So the lines [main] passes to [process_lines] are
    free of newlines. *)
Theorem splitlines_no_linebreak (raw : str) :
  Forall (fun l => Forall (fun c => is_linebreak c = false) l) (splitlines raw).
Proof. apply splitlines_aux_nobreak. constructor. Qed.

(** X7. Writing then re-reading round-trips: for a non-empty list of lines
    free of line breaks, splitting the text [write_output_file] writes
    (the lines joined by ["\n"], plus a final ["\n"]) gives the lines back. *)
Theorem write_output_file_roundtrip (lines : list str) (Hne : lines <> [])
  (Hnl : Forall (fun l => Forall (fun c => is_linebreak c = false) l) lines) :
  splitlines (write_output_file_content lines) = lines.
Proof.
  destruct lines as [|l rest]; [contradiction|].
  unfold splitlines, write_output_file_content, py_join.
  rewrite <- app_assoc. apply splitlines_join. exact Hnl.
Qed.

Lemma write_output_file_roundtrip_witness :
  [s2l "[Am]la la"; s2l ""] <> [] /\
  Forall (fun l => Forall (fun c => is_linebreak c = false) l) [s2l "[Am]la la"; s2l ""] /\
  splitlines (write_output_file_content [s2l "[Am]la la"; s2l ""]) = [s2l "[Am]la la"; s2l ""].
Proof.
  assert (Hne : [s2l "[Am]la la"; s2l ""] <> []) by discriminate.
  assert (Hnl : Forall (fun l => Forall (fun c => is_linebreak c = false) l)
                       [s2l "[Am]la la"; s2l ""]).
  { repeat constructor. }
  split; [exact Hne|]. split; [exact Hnl|].
  exact (write_output_file_roundtrip _ Hne Hnl).
Defined.

(** X8. What [main] writes, read back with [splitlines], is exactly the list
    of converted lines, except for an empty input: then nothing is
    converted and the file holds a single ["\n"], which reads back as one
    empty line. *)
Theorem main_content_lines (raw : str) :
  exists converted, process_lines (splitlines raw) = Some converted /\
    main_content raw = Some (write_output_file_content converted) /\
    splitlines (write_output_file_content converted) =
      match raw with [] => [[]] | _ => converted end.
Proof.
  exists (process_rec (splitlines raw)).
  unfold main_content. rewrite process_lines_rec. split; [reflexivity|]. split; [reflexivity|].
  destruct raw as [|c r]; [reflexivity|].
  apply write_output_file_roundtrip.
  - intros E. assert (Hs : splitlines (c :: r) <> [])
      by (apply splitlines_aux_nonempty; right; discriminate).
    destruct (process_rec_length (splitlines (c :: r))) as [_ Hl].
    rewrite E in Hl. destruct (splitlines (c :: r)); [contradiction | simpl in Hl; lia].
  - apply Forall_forall. intros o Ho. apply Forall_forall. intros x Hx.
    destruct (process_rec_chars _ o x Ho Hx) as [[l [Hl Hxl]]|[Hb|Hb]];
      [|subst x; reflexivity|subst x; reflexivity].
    pose proof (splitlines_no_linebreak (c :: r)) as N. rewrite Forall_forall in N.
    specialize (N l Hl). rewrite Forall_forall in N. exact (N x Hxl).
Qed.

(** ** The line classifier *)

Lemma split_aux_spaces_app pre s :
  Forall (fun c => isspace c = true) pre -> split_aux [] (pre ++ s) = split_aux [] s.
Proof.
  induction 1 as [|c pre Hc _ IH]; [reflexivity|]. cbn [app split_aux]. rewrite Hc. exact IH.
Qed.

Lemma split_aux_nonspace_cons c s :
  isspace c = false -> split_aux [] (c :: s) = split_aux [c] s.
Proof. intros H. cbn [split_aux]. rewrite H. reflexivity. Qed.

Lemma split_aux_head s : forall acc,
  acc <> [] -> exists t rest, split_aux acc s = (rev acc ++ t) :: rest.
Proof.
  induction s as [|c s IH]; intros acc H.
  - destruct acc as [|a acc']; [contradiction|]. exists [], [].
    rewrite app_nil_r. reflexivity.
  - cbn [split_aux]. destruct (isspace c).
    + destruct acc as [|a acc']; [contradiction|]. exists [], (split_aux [] s).
      rewrite app_nil_r. reflexivity.
    + destruct (IH (c :: acc)) as [t [rest E]]; [discriminate|].
      exists (c :: t), rest. rewrite E. cbn [rev]. rewrite <- app_assoc. reflexivity.
Qed.

(** A token whose first character is neither whitespace, a note letter,
    ['('] nor ['|'] is none of chord, annotation and bar separator. *)
Lemma unclassified_head c t :
  isspace c = false -> note_letter c = false ->
  Ascii.eqb "(" c = false -> Ascii.eqb "|" c = false ->
  is_chord_token (c :: t) = false /\ is_parenthetical_annotation (c :: t) = false /\
  is_bar_separator (c :: t) = false.
Proof.
  intros Hs Hn Hp Hb. destruct (strip_cons_nonspace c t Hs) as [u Hu].
  split; [|split].
  - destruct (is_chord_token (c :: t)) eqn:E; [|reflexivity].
    apply chord_head in E. destruct E as [d [v [E1 E2]]].
    rewrite Hu in E1. injection E1; intros; subst. congruence.
  - destruct (is_parenthetical_annotation (c :: t)) eqn:E; [|reflexivity].
    apply paren_head in E. destruct E as [d [v [E1 E2]]].
    rewrite Hu in E1. injection E1; intros; subst. congruence.
  - destruct (is_bar_separator (c :: t)) eqn:E; [|reflexivity].
    apply bar_head in E. destruct E as [d [v [E1 E2]]].
    rewrite Hu in E1. injection E1; intros; subst. congruence.
Qed.

Lemma lbracket_unclassified t :
  is_chord_token ("["%char :: t) = false /\
  is_parenthetical_annotation ("["%char :: t) = false /\
  is_bar_separator ("["%char :: t) = false.
Proof. apply unclassified_head; reflexivity. Qed.







(** X9. A structural section header (optional whitespace, then a bracketed
    text such as ["[Chorus]"], then optional whitespace) is never a
    chord-only line: its first token starts with ["["], which no chord,
    bar separator or annotation does. *)
Theorem section_header_not_chord_only (line : str) :
  section_header line -> is_chord_only_line line = false.
Proof.
  intros [pre [inner [post [E [Hpre _]]]]]. subst line.
  unfold is_chord_only_line, py_split.
  rewrite split_aux_spaces_app by exact Hpre. cbn [app].
  rewrite split_aux_nonspace_cons by reflexivity.
  destruct (split_aux_head (inner ++ "]"%char :: post) ["["%char]) as [t [rest Et]];
    [discriminate|].
  rewrite Et. cbn [rev app filter forallb].
  destruct (lbracket_unclassified t) as [H1 [H2 H3]]. rewrite H1, H2, H3. reflexivity.
Qed.

Lemma section_header_not_chord_only_witness :
  section_header (s2l "  [Chorus]") /\ is_chord_only_line (s2l "  [Chorus]") = false.
Proof.
  assert (H : section_header (s2l "  [Chorus]")).
  { exists (s2l "  "), (s2l "Chorus"), []. split; [reflexivity|].
    split; repeat constructor. }
  split; [exact H | exact (section_header_not_chord_only _ H)].
Defined.


(** ** The standalone formatter *)

Lemma runs_aux_app_same b r : forall acc s,
  acc <> [] -> Forall (fun c => isspace c = b) acc -> Forall (fun c => isspace c = b) r ->
  runs_aux acc (r ++ s) = runs_aux (rev r ++ acc) s.
Proof.
  induction r as [|c r IH]; intros acc s Hne Ha Hr; [reflexivity|].
  apply Forall_cons_iff in Hr. destruct Hr as [Hc Hr].
  destruct acc as [|a acc']; [contradiction|].
  apply Forall_cons_iff in Ha as Ha'. destruct Ha' as [Ha1 _].
  cbn [app runs_aux]. rewrite Ha1, Hc, Bool.eqb_reflx.
  rewrite IH by first [discriminate | exact Hr | constructor; assumption].
  cbn [rev]. rewrite <- app_assoc. reflexivity.
Qed.

Lemma runs_aux_concat rs : forall b acc,
  acc <> [] -> Forall (fun c => isspace c = b) acc -> alternating_runs (negb b) rs ->
  runs_aux acc (concat rs) = rev acc :: rs.
Proof.
  induction rs as [|r rs IH]; intros b acc Hne Ha A.
  - destruct acc; [contradiction | reflexivity].
  - destruct A as [[Hrne Hr] A]. destruct r as [|c r']; [contradiction|].
    apply Forall_cons_iff in Hr as Hr'. destruct Hr' as [Hc Hr'].
    destruct acc as [|a acc']; [contradiction|].
    apply Forall_cons_iff in Ha as Ha'. destruct Ha' as [Ha1 _].
    cbn [concat app runs_aux]. rewrite Ha1, Hc.
    replace (Bool.eqb b (negb b)) with false by (destruct b; reflexivity).
    f_equal. rewrite (runs_aux_app_same (negb b)) by (try discriminate; auto).
    rewrite (IH (negb b)).
    + cbn [rev]. rewrite rev_app_distr, rev_involutive. reflexivity.
    + destruct (rev r'); discriminate.
    + apply Forall_app. split; [apply Forall_rev; exact Hr' | constructor; auto].
    + exact A.
Qed.

Lemma finditer_runs_concat b rs :
  alternating_runs b rs -> finditer_runs (concat rs) = rs.
Proof.
  destruct rs as [|r rs]; intros A; [reflexivity|].
  destruct A as [[Hrne Hr] A]. destruct r as [|c r']; [contradiction|].
  apply Forall_cons_iff in Hr. destruct Hr as [Hc Hr].
  unfold finditer_runs. cbn [concat app runs_aux].
  rewrite (runs_aux_app_same b) by (try discriminate; auto; constructor; auto).
  rewrite (runs_aux_concat rs b).
  - cbn [rev]. rewrite rev_app_distr, rev_involutive. reflexivity.
  - destruct (rev r'); discriminate.
  - apply Forall_app. split; [apply Forall_rev; exact Hr | constructor; auto].
  - exact A.
Qed.

Lemma chord_bracket_false t : is_chord_token (bracket t) = false.
Proof. unfold bracket. cbn [app]. apply lbracket_unclassified. Qed.

Lemma format_run_class b r :
  run_of b r -> run_of b (if is_chord_token r then bracket r else r).
Proof.
  intros R. destruct (is_chord_token r) eqn:E; [|exact R].
  destruct b.
  - rewrite space_run_not_chord in E by exact R. discriminate.
  - destruct R as [_ Hr]. split; [unfold bracket; discriminate|].
    unfold bracket. apply Forall_app. split; [constructor; [reflexivity | constructor]|].
    apply Forall_app. split; [exact Hr | constructor; [reflexivity | constructor]].
Qed.

Lemma alternating_format b rs :
  alternating_runs b rs ->
  alternating_runs b (map (fun r => if is_chord_token r then bracket r else r) rs).
Proof.
  revert b. induction rs as [|r rs IH]; intros b A; [exact I|].
  destruct A as [R A]. split; [apply format_run_class; exact R | apply IH; exact A].
Qed.

(** X11. Formatting a line twice is the same as formatting it once: the
    bracketed chords ["[t]"] are no longer chords, and the whitespace runs
    and the other tokens are kept as they are. *)
Theorem format_chord_only_line_idempotent (line : str) :
  format_chord_only_line (format_chord_only_line line) = format_chord_only_line line.
Proof.
  destruct (finditer_runs_spec line) as [_ [b A]].
  rewrite (format_runs line).
  rewrite (format_runs (concat _)).
  rewrite (finditer_runs_concat b) by (apply alternating_format; exact A).
  rewrite map_map. f_equal. apply map_ext. intros r.
  destruct (is_chord_token r) eqn:E; [|rewrite E; reflexivity].
  rewrite chord_bracket_false. reflexivity.
Qed.

(** X12. Formatting adds exactly two characters per chord token of the
    line (its brackets) and nothing else: the formatted length is the line
    length plus twice the number of chord runs. *)
Theorem format_chord_only_line_length (line : str) :
  length (format_chord_only_line line) =
  length line + 2 * length (filter is_chord_token (finditer_runs line)).
Proof.
  rewrite format_runs. destruct (finditer_runs_spec line) as [E _].
  rewrite <- E at 2. clear E. induction (finditer_runs line) as [|r rs IH]; [reflexivity|].
  cbn [map concat filter]. rewrite !length_app, IH.
  destruct (is_chord_token r); [rewrite length_bracket; cbn [length]|]; lia.
Qed.

(** ** Merge edge cases *)

Lemma finditer_aux_snd s : forall pos start acc,
  map snd (finditer_aux pos start acc s) = split_aux acc s.
Proof.
  induction s as [|c s IH]; intros pos start acc; cbn [finditer_aux split_aux].
  - destruct acc; reflexivity.
  - destruct (isspace c); destruct acc; cbn [map snd]; rewrite ?IH; reflexivity.
Qed.

Lemma chord_positions_snd cl :
  map snd (chord_positions_of cl) = filter is_chord_token (py_split cl).
Proof.
  unfold chord_positions_of, py_split, finditer_nonspace.
  rewrite <- (finditer_aux_snd cl 0 0 []).
  induction (finditer_aux 0 0 [] cl) as [|[p t] l IH]; [reflexivity|].
  cbn [filter map snd]. destruct (is_chord_token t); cbn [map snd]; rewrite IH; reflexivity.
Qed.

Lemma merge_loop_end toks : forall cur ro,
  length cur <= ro ->
  merge_loop toks cur ro = cur ++ concat (map (fun pt => bracket (snd pt)) toks).
Proof.
  induction toks as [|[p t] rest IH]; intros cur ro H; cbn [merge_loop map concat snd].
  - rewrite app_nil_r. reflexivity.
  - replace (if length cur <? p + ro then length cur else p + ro) with (length cur)
      by (destruct (Nat.ltb_spec (length cur) (p + ro)); lia).
    unfold slice_insert. rewrite firstn_all, skipn_all, app_nil_r.
    rewrite IH; [rewrite <- app_assoc; reflexivity|].
    rewrite length_app, length_bracket. lia.
Qed.

(** X13. A chord line none of whose tokens is a chord (only bar separators,
    annotations or words) leaves the lyric line unchanged. *)
Theorem merge_without_chords (chord_line lyric_line : str)
  (H : Forall (fun t => is_chord_token t = false) (py_split chord_line)) :
  merge_chords_and_lyrics chord_line lyric_line = lyric_line.
Proof.
  unfold merge_chords_and_lyrics.
  assert (E : chord_positions_of chord_line = []).
  { apply map_eq_nil with (f := snd). rewrite chord_positions_snd.
    apply filter_all_false. intros x Hx. rewrite Forall_forall in H. exact (H x Hx). }
  rewrite E. reflexivity.
Qed.

Lemma merge_without_chords_witness :
  Forall (fun t => is_chord_token t = false) (py_split (s2l "| | (x2)")) /\
  merge_chords_and_lyrics (s2l "| | (x2)") (s2l "la la") = s2l "la la".
Proof.
  assert (H : Forall (fun t => is_chord_token t = false) (py_split (s2l "| | (x2)"))).
  { vm_compute. repeat constructor. }
  split; [exact H | exact (merge_without_chords _ _ H)].
Defined.

(** X14. Merging with an empty lyric line yields the chord tokens of the
    chord line, each bracketed, one after the other in their order on the
    chord line; nothing is dropped. *)
Theorem merge_empty_lyric (chord_line : str) :
  merge_chords_and_lyrics chord_line [] =
  concat (map bracket (filter is_chord_token (py_split chord_line))).
Proof.
  unfold merge_chords_and_lyrics. rewrite merge_loop_end by (simpl; lia).
  rewrite <- chord_positions_snd, map_map. reflexivity.
Qed.

(** ** Bar separators and annotations *)

Lemma forall_eqb_repeat (a : ascii) l :
  Forall (fun c => Ascii.eqb a c = true) l -> l = repeat a (length l).
Proof.
  induction 1 as [|c l Hc _ IH]; [reflexivity|].
  apply Ascii.eqb_eq in Hc. subst c. cbn [length repeat]. f_equal. exact IH.
Qed.

Lemma forall_not_newline l :
  Forall (fun c => not_newline c = true) l <-> ~ In newline l.
Proof.
  rewrite Forall_forall. unfold not_newline. split.
  - intros H Hin. specialize (H newline Hin). rewrite Ascii.eqb_refl in H. discriminate.
  - intros H c Hc. destruct (Ascii.eqb_spec c newline) as [E|E]; [|reflexivity].
    subst c. contradiction.
Qed.

(** X15. A token is a bar separator exactly when, stripped, it is a
    non-empty run of ['|'] characters. *)
Theorem bar_separator_shape (token : str) :
  is_bar_separator token = true <-> exists n, strip token = repeat "|"%char (S n).
Proof.
  unfold is_bar_separator. rewrite full_match_strip. unfold BAR_SEPARATOR_RE, lit.
  cbn [lang]. split.
  - intros [w1 [w2 [E [[c [Hw1 Hc]] Hw2]]]]. subst w1.
    apply Ascii.eqb_eq in Hc. subst c.
    exists (length w2). rewrite E. cbn [app repeat]. f_equal.
    apply forall_eqb_repeat. exact Hw2.
  - intros [n E]. rewrite E. exists ["|"%char], (repeat "|"%char n).
    split; [reflexivity|]. split.
    + exists "|"%char. split; [reflexivity | apply Ascii.eqb_refl].
    + apply Forall_forall. intros x Hx. apply repeat_spec in Hx. subst x.
      apply Ascii.eqb_refl.
Qed.

(** X16. A token is a parenthetical annotation exactly when, stripped, it
    starts with ['('], ends with [')'] and has no newline in between. *)
Theorem parenthetical_annotation_shape (token : str) :
  is_parenthetical_annotation token = true <->
  exists inner, strip token = "("%char :: inner ++ [")"%char] /\ ~ In newline inner.
Proof.
  unfold is_parenthetical_annotation. rewrite full_match_strip.
  unfold PAREN_ANNOTATION_RE, lit. cbn [lang]. split.
  - intros [w1 [w2 [E [[c [Hw1 Hc]] [w3 [w4 [E2 [H3 [d [Hw4 Hd]]]]]]]]]].
    subst w1 w2 w4. apply Ascii.eqb_eq in Hc. apply Ascii.eqb_eq in Hd. subst c d.
    exists w3. split; [exact E|]. apply forall_not_newline. exact H3.
  - intros [inner [E Hn]]. rewrite E.
    exists ["("%char], (inner ++ [")"%char]). split; [reflexivity|]. split.
    + exists "("%char. split; [reflexivity | apply Ascii.eqb_refl].
    + exists inner, [")"%char]. split; [reflexivity|]. split.
      * apply forall_not_newline. exact Hn.
      * exists ")"%char. split; [reflexivity | apply Ascii.eqb_refl].
Qed.

(** ** The output file name *)

Lemma code_digit_char d : d < 10 -> code (digit_char d) = 48 + d.
Proof. intros H. unfold code, digit_char. apply nat_ascii_embedding. lia. Qed.

Lemma dec_aux_spec f : forall n acc, n < f ->
  exists ds, dec_aux f n acc = ds ++ acc /\
    Forall (fun c => isdigit c = true) ds /\
    forall a, fold_left (fun a c => a * 10 + (code c - 48)) ds a = a * 10 ^ length ds + n.
Proof.
  induction f as [|f IH]; intros n acc Hn; [lia|]. cbn [dec_aux].
  assert (Hm : n mod 10 < 10) by (apply Nat.mod_upper_bound; lia).
  assert (Hd : isdigit (digit_char (n mod 10)) = true).
  { unfold isdigit. rewrite code_digit_char by exact Hm.
    apply andb_true_iff. split; apply Nat.leb_le; lia. }
  destruct (Nat.ltb_spec n 10) as [H|H].
  - exists [digit_char (n mod 10)]. split; [reflexivity|]. split; [repeat constructor; exact Hd|].
    intros a. cbn [fold_left length]. rewrite code_digit_char by exact Hm.
    rewrite Nat.mod_small by exact H. cbn [Nat.pow]. lia.
  - destruct (IH (n / 10) (digit_char (n mod 10) :: acc)) as [ds [E [D F]]].
    { assert (n / 10 < n) by (apply Nat.div_lt; lia). lia. }
    exists (ds ++ [digit_char (n mod 10)]). split; [rewrite E, <- app_assoc; reflexivity|].
    split; [apply Forall_app; split; [exact D | constructor; [exact Hd | constructor]]|].
    intros a. rewrite fold_left_app, F. cbn [fold_left].
    rewrite code_digit_char by exact Hm. rewrite length_app. cbn [length].
    rewrite Nat.add_1_r, Nat.pow_succ_r'. pose proof (Nat.div_mod n 10) as Dm.
    replace (48 + n mod 10 - 48) with (n mod 10) by lia. nia.
Qed.

Lemma str_of_nat_props n :
  int_of_digits (str_of_nat n) = n /\ Forall (fun c => isdigit c = true) (str_of_nat n).
Proof.
  unfold str_of_nat, int_of_digits.
  destruct (dec_aux_spec (S n) n [] (Nat.lt_succ_diag_r n)) as [ds [E [D F]]].
  rewrite E, app_nil_r, F. split; [lia | exact D].
Qed.

Lemma str_of_nat_inj n m : str_of_nat n = str_of_nat m -> n = m.
Proof.
  intros E. rewrite <- (proj1 (str_of_nat_props n)), <- (proj1 (str_of_nat_props m)), E.
  reflexivity.
Qed.

Lemma unique_loop_some pe base ts ext f : forall c name,
  unique_loop pe base ts ext f c = Some name ->
  exists k, c <= k /\
    name = base ++ s2l "_" ++ ts ++ s2l "_" ++ str_of_nat k ++ ext /\
    pe name = false /\
    forall j, c <= j < k ->
      pe (base ++ s2l "_" ++ ts ++ s2l "_" ++ str_of_nat j ++ ext) = true.
Proof.
  induction f as [|f IH]; intros c name H; cbn [unique_loop] in H; [discriminate|].
  destruct (pe (base ++ s2l "_" ++ ts ++ s2l "_" ++ str_of_nat c ++ ext)) eqn:E.
  - cbn [negb] in H. destruct (IH (S c) name H) as [k [Hk [Ek [Hn Hj]]]].
    exists k. split; [lia|]. split; [exact Ek|]. split; [exact Hn|].
    intros j Hj'. destruct (Nat.eq_dec j c) as [->|Hne]; [exact E|]. apply Hj. lia.
  - cbn [negb] in H. injection H; intros <-. exists c. split; [lia|].
    split; [reflexivity|]. split; [exact E|]. intros j Hj. lia.
Qed.

Lemma unique_loop_none pe base ts ext f : forall c,
  unique_loop pe base ts ext f c = None ->
  forall j, c <= j < c + f ->
    pe (base ++ s2l "_" ++ ts ++ s2l "_" ++ str_of_nat j ++ ext) = true.
Proof.
  induction f as [|f IH]; intros c H j Hj; [lia|]. cbn [unique_loop] in H.
  destruct (pe (base ++ s2l "_" ++ ts ++ s2l "_" ++ str_of_nat c ++ ext)) eqn:E;
    [|discriminate].
  destruct (Nat.eq_dec j c) as [->|Hne]; [exact E|]. apply (IH (S c) H). lia.
Qed.

Lemma NoDup_map_inj {A B} (f : A -> B) l :
  (forall x y, f x = f y -> x = y) -> NoDup l -> NoDup (map f l).
Proof.
  intros Hf. induction 1 as [|x l Hx _ IH]; cbn [map]; constructor; [|exact IH].
  intros Hin. apply in_map_iff in Hin. destruct Hin as [y [Ey Hy]].
  apply Hf in Ey. subst y. contradiction.
Qed.

(** X17. The counter is written as its decimal digits, which read back as
    the counter: [int(str(counter)) == counter]; so distinct counters give
    distinct candidate names. *)
Theorem str_of_nat_roundtrip (n : nat) :
  int_of_digits (str_of_nat n) = n /\ Forall (fun c => isdigit c = true) (str_of_nat n).
Proof. exact (str_of_nat_props n). Qed.

(** X18. [unique_output_filename] only returns a name that does not
    exist: [base_name + ext] when it is free, and otherwise
    [base_name_<timestamp>_<k><ext>] for the least counter [k >= 1] whose
    name is free. *)
Theorem unique_output_filename_fresh (path_exists : str -> bool) (timestamp : str)
  (fuel : nat) (base_name ext name : str)
  (H : unique_output_filename path_exists timestamp fuel base_name ext = Some name) :
  path_exists name = false /\
  ((path_exists (base_name ++ ext) = false /\ name = base_name ++ ext) \/
   (path_exists (base_name ++ ext) = true /\
    exists k, 1 <= k /\
      name = base_name ++ s2l "_" ++ timestamp ++ s2l "_" ++ str_of_nat k ++ ext /\
      forall j, 1 <= j < k ->
        path_exists (base_name ++ s2l "_" ++ timestamp ++ s2l "_" ++ str_of_nat j ++ ext)
        = true)).
Proof.
  unfold unique_output_filename in H.
  destruct (path_exists (base_name ++ ext)) eqn:E; cbn [negb] in H.
  - destruct (unique_loop_some _ _ _ _ _ _ _ H) as [k [Hk [Ek [Hn Hj]]]].
    split; [exact Hn|]. right. split; [reflexivity|]. exists k. auto.
  - injection H; intros <-. split; [exact E|]. left. auto.
Qed.

Lemma unique_output_filename_fresh_witness :
  unique_output_filename (fun s => if list_eq_dec ascii_dec s (s2l "song.md") then true else false)
    (s2l "20260101120000") 3 (s2l "song") (s2l ".md") = Some (s2l "song_20260101120000_1.md") /\
  (fun s => if list_eq_dec ascii_dec s (s2l "song.md") then true else false)
    (s2l "song_20260101120000_1.md") = false.
Proof.
  assert (H : unique_output_filename
    (fun s => if list_eq_dec ascii_dec s (s2l "song.md") then true else false)
    (s2l "20260101120000") 3 (s2l "song") (s2l ".md") = Some (s2l "song_20260101120000_1.md"))
    by (vm_compute; reflexivity).
  split; [exact H | exact (proj1 (unique_output_filename_fresh _ _ _ _ _ _ H))].
Defined.

(** X19. The [while True] loop of [unique_output_filename] ends: when the
    existing names are among a finite list [fs], a free name is found within
    [length fs + 1] candidates. *)
Theorem unique_output_filename_terminates (path_exists : str -> bool) (timestamp : str)
  (base_name ext : str) (fs : list str)
  (Hfin : forall s, path_exists s = true -> In s fs) :
  exists name,
    unique_output_filename path_exists timestamp (S (length fs)) base_name ext = Some name.
Proof.
  unfold unique_output_filename.
  destruct (negb (path_exists (base_name ++ ext))); [eexists; reflexivity|].
  destruct (unique_loop path_exists base_name timestamp ext (S (length fs)) 1) as [name|] eqn:E;
    [exists name; reflexivity|].
  exfalso.
  set (cand := fun j => base_name ++ s2l "_" ++ timestamp ++ s2l "_" ++ str_of_nat j ++ ext).
  assert (Hnd : NoDup (map cand (seq 1 (S (length fs))))).
  { apply NoDup_map_inj; [|apply seq_NoDup].
    intros x y Exy. unfold cand in Exy.
    apply app_inv_head in Exy. apply app_inv_head in Exy. apply app_inv_head in Exy.
    apply app_inv_head in Exy. apply app_inv_tail in Exy. apply str_of_nat_inj. exact Exy. }
  assert (Hinc : incl (map cand (seq 1 (S (length fs)))) fs).
  { intros s Hs. apply in_map_iff in Hs. destruct Hs as [j [<- Hj]].
    apply in_seq in Hj. apply Hfin. unfold cand.
    apply (unique_loop_none _ _ _ _ _ _ E). lia. }
  pose proof (NoDup_incl_length Hnd Hinc) as L.
  rewrite length_map, length_seq in L. cbv [str] in *. lia.
Qed.

Lemma unique_output_filename_terminates_witness :
  (forall s, (fun s => if list_eq_dec ascii_dec s (s2l "a.md") then true else false) s = true ->
     In s [s2l "a.md"]) /\
  exists name, unique_output_filename
    (fun s => if list_eq_dec ascii_dec s (s2l "a.md") then true else false)
    (s2l "20260101120000") (S (length [s2l "a.md"])) (s2l "a") (s2l ".md") = Some name.
Proof.
  assert (Hfin : forall s, (fun s => if list_eq_dec ascii_dec s (s2l "a.md") then true else false) s
                   = true -> In s [s2l "a.md"]).
  { intros s. cbn beta. destruct (list_eq_dec ascii_dec s (s2l "a.md")) as [->|];
      [intros _; left; reflexivity | discriminate]. }
  split; [exact Hfin | exact (unique_output_filename_terminates _ _ _ _ _ Hfin)].
Defined.

(** ** File mode keeps its output in the current directory *)

Lemma rfind_aux_spec c s : forall i best,
  (rfind_aux c i s best = None -> best = None /\ ~ In c s) /\
  (forall j, rfind_aux c i s best = Some j ->
     (best = Some j /\ ~ In c s) \/ (i <= j /\ ~ In c (skipn (S (j - i)) s))).
Proof.
  induction s as [|x t IH]; intros i best; cbn [rfind_aux].
  - split; [intros H; split; [exact H | intros []]|].
    intros j H. left. split; [exact H | intros []].
  - destruct (IH (S i) (if Ascii.eqb x c then Some i else best)) as [IHn IHs].
    split.
    + intros H. destruct (IHn H) as [Hb Hn].
      destruct (Ascii.eqb_spec x c) as [Ex|Ex]; [discriminate|].
      split; [exact Hb|]. intros [Hx|Hx]; [contradiction | exact (Hn Hx)].
    + intros j H. destruct (IHs j H) as [[Hb Hn]|[Hj Hn]].
      * destruct (Ascii.eqb_spec x c) as [Ex|Ex].
        -- injection Hb; intros <-. right. split; [lia|].
           rewrite Nat.sub_diag. exact Hn.
        -- left. split; [exact Hb|]. intros [Hx|Hx]; [contradiction | exact (Hn Hx)].
      * right. split; [lia|].
        replace (S (j - i)) with (S (S (j - S i))) by lia. exact Hn.
Qed.

Lemma basename_no_slash p : ~ In "/"%char (basename p).
Proof.
  unfold basename, rfind. destruct (rfind_aux_spec "/" p 0 None) as [Hn Hs].
  destruct (rfind_aux "/" 0 p None) as [j|] eqn:E.
  - destruct (Hs j eq_refl) as [[Hb _]|[_ H]]; [discriminate|].
    rewrite Nat.sub_0_r in H. exact H.
  - exact (proj2 (Hn eq_refl)).
Qed.

Lemma splitext_root_incl p c : In c (fst (splitext p)) -> In c p.
Proof.
  unfold splitext. destruct (rfind "." p) as [dot|]; [|cbn [fst]; auto].
  destruct (_ && _); cbn [fst]; [|auto].
  intros H. rewrite <- (firstn_skipn dot p). apply in_app_iff. left. exact H.
Qed.

Lemma isdigit_not_slash c : isdigit c = true -> c <> "/"%char.
Proof. intros H ->. discriminate. Qed.

(** X20. In file mode the output file name never contains ['/']: it is
    built from the input's base name (the text after its last ['/']), so
    the converted file is written to the current directory whatever the
    input path, provided the timestamp has no ['/'] (it is digits). *)
Theorem file_mode_output_in_cwd (path_exists : str -> bool) (timestamp : str)
  (fuel : nat) (input_path name : str)
  (Hts : ~ In "/"%char timestamp)
  (H : unique_output_filename path_exists timestamp fuel (file_mode_base input_path)
         (s2l ".md") = Some name) :
  ~ In "/"%char name.
Proof.
  assert (Hb : ~ In "/"%char (file_mode_base input_path)).
  { unfold file_mode_base. intros Hin. apply in_app_iff in Hin. destruct Hin as [Hin|Hin].
    - apply splitext_root_incl in Hin. exact (basename_no_slash input_path Hin).
    - vm_compute in Hin. intuition discriminate. }
  unfold unique_output_filename in H.
  destruct (negb (path_exists (file_mode_base input_path ++ s2l ".md"))).
  - injection H; intros <-. intros Hin. apply in_app_iff in Hin.
    destruct Hin as [Hin|Hin]; [exact (Hb Hin) | vm_compute in Hin; intuition discriminate].
  - destruct (unique_loop_some _ _ _ _ _ _ _ H) as [k [_ [Ek _]]]. subst name.
    intros Hin. repeat rewrite in_app_iff in Hin.
    destruct Hin as [Hin|[Hin|[Hin|[Hin|[Hin|Hin]]]]].
    + exact (Hb Hin).
    + vm_compute in Hin. intuition discriminate.
    + exact (Hts Hin).
    + vm_compute in Hin. intuition discriminate.
    + pose proof (proj2 (str_of_nat_props k)) as D. rewrite Forall_forall in D.
      exact (isdigit_not_slash _ (D _ Hin) eq_refl).
    + vm_compute in Hin. intuition discriminate.
Qed.

Lemma file_mode_output_in_cwd_witness :
  ~ In "/"%char (s2l "20260101120000") /\
  unique_output_filename (fun _ => false) (s2l "20260101120000") 1
    (file_mode_base (s2l "charts/song.txt")) (s2l ".md") = Some (s2l "song_converted.md") /\
  ~ In "/"%char (s2l "song_converted.md").
Proof.
  assert (Hts : ~ In "/"%char (s2l "20260101120000")).
  { vm_compute. intuition discriminate. }
  assert (H : unique_output_filename (fun _ => false) (s2l "20260101120000") 1
    (file_mode_base (s2l "charts/song.txt")) (s2l ".md") = Some (s2l "song_converted.md"))
    by (vm_compute; reflexivity).
  split; [exact Hts|]. split; [exact H|].
  exact (file_mode_output_in_cwd _ _ _ _ _ Hts H).
Defined.
